(** * botox-di: a shallow embedding of [botox/injector.py]

    The development follows the module top to bottom: the exceptions, the
    object model the injector inspects (tokens, functions, classes), the five
    [Injection] classes, and the [Injector] with its registry dictionary, its
    [lru_cache]-wrapped planner [_find_path] and the executor [deliver].

    Python objects that are mutated or compared by identity live in explicit
    stores: delivered containers and instances in a heap, the [_injections]
    dictionaries in a dictionary store, the injectors themselves in an
    injector store.  A method of the injector is a function of the world that
    returns an outcome together with the world it leaves behind, so that the
    state after a raised exception is still visible. *)

From Stdlib Require Import ZArith NArith String Lia.
From stdpp Require Import base option list gmap strings.

(** ** Exceptions and outcomes *)

Inductive PyError :=
  | PreparationError          (* class PreparationError(DependencyInjectionError) *)
  | DeliveryError             (* class DeliveryError(DependencyInjectionError) *)
  | AttributeError            (* attribute access on an object that lacks it *)
  | TypeError                 (* len() of an unsized object, call of a non-callable *)
  | IndexError                (* [instances[-1]] on an empty list *)
  | UserError (code : N)      (* anything raised by a user supplied callable *)
  | BadReference.             (* a handle that denotes no live object; no Python
                                 run produces one *)

#[global] Instance PyError_eq_dec : EqDecision PyError.
Proof. solve_decision. Defined.

(** The outcome of running a piece of Python with a bounded number of loop
    iterations: it returns, it raises, or the bound was too small. *)
Inductive Result (A : Type) :=
  | Ok (a : A)
  | Raise (e : PyError)
  | OutOfFuel.

Arguments Ok {A} a.
Arguments Raise {A} e.
Arguments OutOfFuel {A}.

Definition halts {A} (r : Result A) : Prop :=
  match r with OutOfFuel => False | _ => True end.

(** ** Tokens *)

(** [token.__origin__] of a parameterized [typing] alias, as [prepare]
    tells origins apart: [list], [tuple] or [set] or a subclass of one of
    them ([MyCollection(Generic[T], list)] counts as [list]); another class,
    such as [dict] for [Dict[K, V]]; or an object that is no class, such as
    [typing.Union], the origin of [Optional[X]]. *)
Inductive Origin := OriginList | OriginTuple | OriginSet | OriginOther | OriginNotClass.

(** A token is a hashable object used as dictionary key: a class, a
    parameterized alias such as [List[PaymentService]], or a string.
    Classes and aliases are told apart by their number; only aliases have an
    [__origin__]. *)
Inductive Token :=
  | TClass (id : N)
  | TAlias (origin : Origin) (id : N)
  | TStr (s : string).

#[global] Instance Origin_eq_dec : EqDecision Origin.
Proof. solve_decision. Defined.

#[global] Instance Token_eq_dec : EqDecision Token.
Proof. solve_decision. Defined.

Definition Origin_to_nat (o : Origin) : nat :=
  match o with
  | OriginList => 0 | OriginTuple => 1 | OriginSet => 2 | OriginOther => 3
  | OriginNotClass => 4
  end.

Definition Origin_of_nat (n : nat) : Origin :=
  match n with
  | 0 => OriginList | 1 => OriginTuple | 2 => OriginSet | 3 => OriginOther
  | _ => OriginNotClass
  end.

#[global] Instance Origin_countable : Countable Origin.
Proof.
  apply (inj_countable' Origin_to_nat Origin_of_nat). by intros [].
Defined.

Definition Token_to_sum (t : Token) : N + Origin * N + string :=
  match t with
  | TClass n => inl (inl n)
  | TAlias o n => inl (inr (o, n))
  | TStr s => inr s
  end.

Definition Token_of_sum (s : N + Origin * N + string) : Token :=
  match s with
  | inl (inl n) => TClass n
  | inl (inr (o, n)) => TAlias o n
  | inr s => TStr s
  end.

#[global] Instance Token_countable : Countable Token.
Proof.
  apply (inj_countable' Token_to_sum Token_of_sum). by intros [].
Defined.

(** [hasattr(token, '__origin__') and issubclass(token.__origin__, X)] for
    [X] one of [List], [Tuple] and [Set].  A class and a string have no
    [__origin__]; [issubclass] raises [TypeError] when its first argument is
    not a class. *)
Definition has_origin (token : Token) (o : Origin) : Result bool :=
  match token with
  | TAlias OriginNotClass _ => Raise TypeError
  | TAlias o' _ => Ok (bool_decide (o' = o))
  | TClass _ | TStr _ => Ok false
  end.

(** ** Values and the heap *)

Definition loc := nat.

Inductive Value :=
  | VNone
  | VInt (z : Z)
  | VStr (s : string)
  | VTypes (ts : list Token)   (* a list of tokens, as handed to [prepare]
                                  for a container token *)
  | VEmptyTuple                (* [()]: CPython keeps one empty tuple *)
  | VRef (l : loc).            (* a mutable or identity-bearing object *)

#[global] Instance Value_eq_dec : EqDecision Value.
Proof. solve_decision. Defined.

Inductive Obj :=
  | OList (items : list Value)
  | OTuple (items : list Value)
  | OSet (items : list Value)
  | OInstance (class_id : N) (attrs : list Value).

#[global] Instance Obj_eq_dec : EqDecision Obj.
Proof. solve_decision. Defined.

(** The heap is the list of objects allocated so far; a new object goes to
    the end, so its location is the length of the heap before. *)
Abbreviation Heap := (list Obj).

Inductive HeapOp :=
  | Alloc (o : Obj)
  | Store (l : loc) (o : Obj).

Definition apply_op (h : Heap) (op : HeapOp) : Heap :=
  match op with
  | Alloc o => h ++ [o]
  | Store l o => <[l := o]> h
  end.

Definition apply_ops (h : Heap) (ops : list HeapOp) : Heap :=
  foldl apply_op h ops.

(** A user supplied callable (constructor, factory, lambda): it sees its
    positional arguments and the heap, and answers with an outcome and the
    allocations and stores it performed. *)
Definition Callable := list Value → Heap → Result Value * list HeapOp.

Definition call (c : Callable) (args : list Value) (h : Heap) : Result Value * Heap :=
  let '(r, ops) := c args h in (r, apply_ops h ops).

(** ** Functions and classes, as far as the injector inspects them *)

(** The kinds of parameter, in the order the syntax puts them:
    [def f(positional_only, /, positional, *var_positional, keyword_only,
    **var_keyword)]. *)
Inductive ParamKind :=
  PositionalOnly | Positional | VarPositional | KeywordOnly | VarKeyword.

#[global] Instance ParamKind_eq_dec : EqDecision ParamKind.
Proof. solve_decision. Defined.

Record Param := {
  p_name : string;
  p_kind : ParamKind;
  p_annotation : option Token
}.

Record PyFunction := {
  fn_name : string;              (* __name__ *)
  fn_params : list Param;        (* the parameters, in declaration order *)
  fn_return : option Token;      (* the annotation after [->] *)
  fn_call : Callable
}.

(** [function.__code__.co_argcount]: the number of positional parameters,
    positional-only ones included; [*args] and what follows do not count. *)
Definition co_argcount (f : PyFunction) : nat :=
  length (filter (λ p, p_kind p = PositionalOnly ∨ p_kind p = Positional) (fn_params f)).

Definition of_kind (k : ParamKind) (params : list Param) : list Param :=
  filter (λ p, p_kind p = k) params.

(** The order in which the compiler enters the parameters into
    [__annotations__]: the ordinary positional parameters first, then the
    positional-only ones, [*args], the keyword-only ones and [**kwargs]
    ([def f(a: A, /, b: B)] has the annotations of [b], then [a]). *)
Definition annotation_order (params : list Param) : list Param :=
  of_kind Positional params ++ of_kind PositionalOnly params ++
  of_kind VarPositional params ++ of_kind KeywordOnly params ++
  of_kind VarKeyword params.

(** [function.__annotations__.items()]: one entry per annotated parameter,
    then the entry ['return'] when the result is annotated. *)
Definition param_annotation (p : Param) : option (string * Token) :=
  match p_annotation p with
  | Some t => Some (p_name p, t)
  | None => None
  end.

Definition annotations (f : PyFunction) : list (string * Token) :=
  omap param_annotation (annotation_order (fn_params f)) ++
  match fn_return f with
  | Some t => [("return"%string, t)]
  | None => []
  end.

(** [[token for name, token in references if name != 'return']] *)
Definition annotation_tokens (references : list (string * Token)) : list Token :=
  (filter (λ r, r.1 ≠ "return"%string) references).*2.

(** What [cls.__init__] is: [object.__init__] itself, the slot wrapper of a
    built-in base such as [list] or [dict] (it has no [__annotations__]), or
    a function defined with [def]. *)
Inductive InitKind :=
  | ObjectInit
  | SlotInit
  | DefInit (f : PyFunction).

Record PyClass := {
  cls_id : N;
  cls_init : InitKind;
  cls_new : Callable             (* calling the class with positional arguments *)
}.

(** ** The injections *)

(** The [sequence_data_type] of a [SequenceInjection]: one of the built-in
    [list], [tuple] and [set], which is what [prepare] passes, or any other
    callable, such as the class [MyCollection(Generic[T], list)] of the
    tests.  The other callable is given by what calling it on an iterable
    does, as a function of the elements the iterable yields. *)
Inductive SeqKind :=
  | KList
  | KTuple
  | KSet
  | KCustom (construct : Callable).

(** The five concrete subclasses of [Injection].  [SequenceInjection] keeps
    whatever it was given as [tokens]: [Some tokens] is a sized collection of
    these tokens, [None] an object without [len]. *)
Inductive Injection :=
  | ValueInjection (value : Value)
  | ClassInjection (_class : PyClass)
  | LambdaInjection (_lambda : PyFunction)
  | FunctionInjection (function : PyFunction)
  | SequenceInjection (sequence_data_type : SeqKind) (tokens : option (list Token)).

(** The property [ingredients], as the planner uses it: [len(ingredients)]
    and the iteration need a sized collection. *)
Definition ingredients (i : Injection) : Result (list Token) :=
  match i with
  | ValueInjection _ => Ok []
  | ClassInjection c =>
      match cls_init c with
      | ObjectInit => Ok []
      | SlotInit => Raise AttributeError
      | DefInit init_function => Ok (annotation_tokens (annotations init_function))
      end
  | LambdaInjection _ => Ok []
  | FunctionInjection f => Ok (annotation_tokens (annotations f))
  | SequenceInjection _ (Some tokens) => Ok tokens
  | SequenceInjection _ None => Raise TypeError
  end.

(** The items of a tuple, if the value is one. *)
Definition tuple_items (h : Heap) (v : Value) : option (list Value) :=
  match v with
  | VEmptyTuple => Some []
  | VRef l =>
      match h !! l with
      | Some (OTuple items) => Some items
      | _ => None
      end
  | _ => None
  end.

(** [hash(v)] returns: [None], numbers, strings and the empty tuple have a
    hash, a tuple has one when all its items have, an instance is hashed by
    its identity (the classes here define neither [__eq__] nor [__hash__]),
    lists and sets have none.  [depth] bounds the nesting of tuples. *)
Fixpoint hashable_at (depth : nat) (h : Heap) (v : Value) : bool :=
  match v with
  | VNone | VInt _ | VStr _ | VEmptyTuple => true
  | VTypes _ => false
  | VRef l =>
      match h !! l with
      | Some (OInstance _ _) => true
      | Some (OTuple items) =>
          match depth with
          | 0 => false
          | S depth => forallb (hashable_at depth h) items
          end
      | _ => false
      end
  end.

(** [v1 == v2] for hashable values: the same object or equal numbers or
    strings, or two tuples with pairwise equal items. *)
Fixpoint py_eq_at (depth : nat) (h : Heap) (v1 v2 : Value) : bool :=
  bool_decide (v1 = v2) ||
  match depth with
  | 0 => false
  | S depth =>
      match tuple_items h v1, tuple_items h v2 with
      | Some items1, Some items2 =>
          bool_decide (length items1 = length items2) &&
          forallb (λ ab, py_eq_at depth h ab.1 ab.2) (zip items1 items2)
      | _, _ => false
      end
  end.

(** Tuples are built from items that exist, so the nesting of tuples in a
    heap is less deep than the heap is long. *)
Definition hashable (h : Heap) (v : Value) : bool := hashable_at (length h) h v.

Definition py_eq (h : Heap) (v1 v2 : Value) : bool := py_eq_at (length h) h v1 v2.

(** The elements [set(iterable)] keeps: of equal elements the first one
    seen. *)
Fixpoint dedupe (h : Heap) (seen rest : list Value) : list Value :=
  match rest with
  | [] => []
  | v :: rest' =>
      if existsb (py_eq h v) seen then dedupe h seen rest'
      else v :: dedupe h (v :: seen) rest'
  end.

(** [self._sequence_data_type(dependencies)]: [list] builds a new list;
    [tuple] builds a new tuple unless there is no element, and then returns
    the empty tuple; [set] hashes every element, raises [TypeError] when one
    has no hash, and builds a new set otherwise; another callable is
    called. *)
Definition make_sequence (k : SeqKind) (dependencies : list Value) (h : Heap)
  : Result Value * Heap :=
  match k with
  | KList => (Ok (VRef (length h)), h ++ [OList dependencies])
  | KTuple =>
      match dependencies with
      | [] => (Ok VEmptyTuple, h)
      | _ => (Ok (VRef (length h)), h ++ [OTuple dependencies])
      end
  | KSet =>
      if forallb (hashable h) dependencies
      then (Ok (VRef (length h)), h ++ [OSet (dedupe h [] dependencies)])
      else (Raise TypeError, h)
  | KCustom construct => call construct dependencies h
  end.

(** The method [deliver] of each injection. *)
Definition deliver_injection (i : Injection) (dependencies : list Value) (h : Heap)
  : Result Value * Heap :=
  match i with
  | ValueInjection v => (Ok v, h)
  | ClassInjection c => call (cls_new c) dependencies h
  | LambdaInjection f => call (fn_call f) [] h
  | FunctionInjection f => call (fn_call f) dependencies h
  | SequenceInjection k _ => make_sequence k dependencies h
  end.

(** ** The injector's data *)

(** [DependencyPath = List[Tuple[int, Callable]]].  The callable of a step is
    the bound method [injection.deliver], kept here as the injection it is
    bound to; [None] is the Python [None] the planner stores for a token
    without injection. *)
Definition Step : Type := nat * option Injection.
Definition Path : Type := list Step.

(** [functools.lru_cache()] around [_find_path]: the key is the argument
    tuple [(token, strict)], the entries are kept from most to least recently
    used, and the default [maxsize] is 128. *)
Definition CacheKey : Type := Token * bool.
Definition Cache : Type := list (CacheKey * Path).

Definition lru_maxsize : nat := 128.

Fixpoint cache_get (key : CacheKey) (c : Cache) : option Path :=
  match c with
  | [] => None
  | (k, p) :: c' => if bool_decide (k = key) then Some p else cache_get key c'
  end.

Definition cache_remove (key : CacheKey) (c : list (CacheKey * Path))
  : list (CacheKey * Path) :=
  filter (λ e, e.1 ≠ key) c.

(** A hit moves the entry to the front. *)
Definition cache_hit (key : CacheKey) (p : Path) (c : Cache) : Cache :=
  (key, p) :: cache_remove key c.

(** A miss stores the new result at the front; a full cache first drops its
    least recently used entry. *)
Definition cache_miss (key : CacheKey) (p : Path) (c : Cache) : Cache :=
  (key, p) :: (if bool_decide (length c < lru_maxsize) then c
               else take (length c - 1) c).

(** An [Injector] object: the attribute [_injections] refers to a dictionary
    object, [_find_path_method] carries the cache of the wrapper. *)
Record InjectorObj := {
  _injections : nat;
  _find_path_method : Cache
}.

Record World := {
  classes : Token → PyClass;            (* the class object a token is *)
  heap : Heap;
  dicts : list (gmap Token Injection);
  injectors : list InjectorObj
}.

Definition set_heap (h : Heap) (w : World) : World :=
  {| classes := classes w; heap := h; dicts := dicts w; injectors := injectors w |}.

Definition set_dicts (ds : list (gmap Token Injection)) (w : World) : World :=
  {| classes := classes w; heap := heap w; dicts := ds; injectors := injectors w |}.

Definition set_injectors (js : list InjectorObj) (w : World) : World :=
  {| classes := classes w; heap := heap w; dicts := dicts w; injectors := js |}.

(** ** Methods as world transformers *)

Definition M (A : Type) : Type := World → Result A * World.

Definition ret {A} (a : A) : M A := λ w, (Ok a, w).

Definition raise {A} (e : PyError) : M A := λ w, (Raise e, w).

Definition bind {A B} (m : M A) (k : A → M B) : M B :=
  λ w, match m w with
       | (Ok a, w') => k a w'
       | (Raise e, w') => (Raise e, w')
       | (OutOfFuel, w') => (OutOfFuel, w')
       end.

Notation "'let!' x := m 'in' k" := (bind m (λ x, k))
  (at level 10, x name, m at level 100, k at level 200).

Definition of_result {A} (r : Result A) : M A := λ w, (r, w).

Definition on_heap {A} (f : Heap → Result A * Heap) : M A :=
  λ w, let '(r, h) := f (heap w) in (r, set_heap h w).

Definition get_injector (self : nat) : M InjectorObj :=
  λ w, match injectors w !! self with
       | Some o => (Ok o, w)
       | None => (Raise BadReference, w)
       end.

Definition put_injector (self : nat) (o : InjectorObj) : M unit :=
  λ w, (Ok tt, set_injectors (<[self := o]> (injectors w)) w).

Definition new_injector (o : InjectorObj) : M nat :=
  λ w, (Ok (length (injectors w)), set_injectors (injectors w ++ [o]) w).

Definition get_dict (d : nat) : M (gmap Token Injection) :=
  λ w, match dicts w !! d with
       | Some m => (Ok m, w)
       | None => (Raise BadReference, w)
       end.

Definition put_dict (d : nat) (m : gmap Token Injection) : M unit :=
  λ w, (Ok tt, set_dicts (<[d := m]> (dicts w)) w).

Definition new_dict (m : gmap Token Injection) : M nat :=
  λ w, (Ok (length (dicts w)), set_dicts (dicts w ++ [m]) w).

(** ** class Injector *)

(** [Injector()]: a fresh empty dictionary and a fresh [lru_cache()].  The
    constructor is taken with its default [cache=None]. *)
Definition Injector_init : M nat :=
  let! d := new_dict ∅ in
  new_injector {| _injections := d; _find_path_method := [] |}.

(** [create]: a new injector whose [_injections] is [self._injections.copy()]. *)
Definition create (self : nat) : M nat :=
  let! injector := Injector_init in
  let! me := get_injector self in
  let! mine := get_dict (_injections me) in
  let! copy := new_dict mine in
  let! fresh := get_injector injector in
  let! _ := put_injector injector
         {| _injections := copy; _find_path_method := _find_path_method fresh |} in
  ret injector.

(** The argument [value] of [prepare], told apart the way [prepare] does.
    [None] is [SNone], and [SObject VNone] is [None] as well. *)
Inductive Source :=
  | SInjection (i : Injection)    (* isinstance(value, Injection) *)
  | SType (c : PyClass)           (* isinstance(value, type) *)
  | SFunction (f : PyFunction)    (* isinstance(value, FunctionType) *)
  | SMethod (f : PyFunction)      (* isinstance(value, MethodType) *)
  | SNone                         (* value is None *)
  | SObject (v : Value).          (* any other object *)

(** The characters of a string, each a string of its own. *)
Fixpoint characters (s : string) : list string :=
  match s with
  | EmptyString => []
  | String a s' => String a EmptyString :: characters s'
  end.

(** What a [SequenceInjection] built by [prepare] holds as [_tokens], as
    [len] and the iteration of the planner see it: a list of tokens lists
    them, a string its characters, the empty tuple nothing; [None], a number,
    a class, a function and a method have no [len].  A reference is taken
    for an instance of a class without [__len__]; containers on the heap
    handed over as [tokens] are not covered. *)
Definition as_tokens (value : Source) : option (list Token) :=
  match value with
  | SObject (VTypes ts) => Some ts
  | SObject (VStr s) => Some (TStr <$> characters s)
  | SObject VEmptyTuple => Some []
  | _ => None
  end.

(** [needle in hay] on strings. *)
Fixpoint contains (needle hay : string) : bool :=
  String.prefix needle hay ||
  match hay with
  | EmptyString => false
  | String _ hay' => contains needle hay'
  end.

Definition prepare_injection (self : nat) (token : Token) (injection : Source) : M unit :=
  match injection with
  | SInjection i =>
      let! me := get_injector self in
      let! m := get_dict (_injections me) in
      put_dict (_injections me) (<[token := i]> m)      (* self._injections[token] = injection *)
  | _ => raise PreparationError
  end.

(** The branches of [prepare] below the three tests of the origin. *)
Definition infer_plain (token : Token) (value : Source) : M Injection :=
  match value with
  | SInjection i => ret i
  | SType c => ret (ClassInjection c)
  | SFunction f =>
      if contains "<lambda>" (fn_name f) then
        if bool_decide (co_argcount f ≠ 0) then raise PreparationError
        else ret (LambdaInjection f)
      else
        if bool_decide (co_argcount f ≠ 0) && bool_decide (length (annotations f) = 0)
        then raise PreparationError
        else ret (FunctionInjection f)
  | SMethod f => ret (FunctionInjection f)
  | SNone | SObject VNone => λ w, (Ok (ClassInjection (classes w token)), w)
  | SObject v => ret (ValueInjection v)
  end.

(** The [if]/[elif] chain of [prepare]. *)
Definition infer_injection (token : Token) (value : Source) : M Injection :=
  match value with
  | SInjection i => ret i
  | _ =>
    let! is_list := of_result (has_origin token OriginList) in
    if is_list then ret (SequenceInjection KList (as_tokens value)) else
    let! is_tuple := of_result (has_origin token OriginTuple) in
    if is_tuple then ret (SequenceInjection KTuple (as_tokens value)) else
    let! is_set := of_result (has_origin token OriginSet) in
    if is_set then ret (SequenceInjection KSet (as_tokens value)) else
    infer_plain token value
  end.

Definition prepare (self : nat) (token : Token) (value : Source) : M unit :=
  let! injection := infer_injection token value in
  prepare_injection self token (SInjection injection).

(** One turn of the [while queue:] loop of [_find_path]: either the next
    queue and path, or the way the loop is left. *)
Definition find_path_step (injections : gmap Token Injection) (strict : bool)
    (queue : list Token) (path : Path) : (list Token * Path) + Result Path :=
  match queue with
  | [] => inr (Ok path)
  | token :: queue =>                                   (* queue.pop(0) *)
      match injections !! token with
      | None =>
          if strict then inr (Raise DeliveryError)
          else
            let path := path ++ [(0, None)] in          (* path.append((0, None)) *)
            inr (Raise AttributeError)                   (* None.ingredients *)
      | Some injection =>
          match ingredients injection with
          | Ok ingredients =>
              inl (queue ++ ingredients,
                   path ++ [(length ingredients, Some injection)])
          | Raise e => inr (Raise e)
          | OutOfFuel => inr OutOfFuel
          end
      end
  end.

Fixpoint find_path_loop (fuel : nat) (injections : gmap Token Injection) (strict : bool)
    (queue : list Token) (path : Path) : Result Path :=
  match fuel with
  | 0 => OutOfFuel
  | S fuel =>
      match find_path_step injections strict queue path with
      | inl (queue', path') => find_path_loop fuel injections strict queue' path'
      | inr r => r
      end
  end.

Definition _find_path (fuel : nat) (self : nat) (token : Token) (strict : bool) : M Path :=
  let! me := get_injector self in
  let! injections := get_dict (_injections me) in
  of_result (find_path_loop fuel injections strict [token] []).

(** [self._find_path_method(token, strict)]: the cached planner.  A call of
    [_find_path] that raises stores nothing. *)
Definition find_path_method (fuel : nat) (self : nat) (token : Token) (strict : bool)
  : M Path :=
  let! me := get_injector self in
  match cache_get (token, strict) (_find_path_method me) with
  | Some path =>
      let! _ := put_injector self
             {| _injections := _injections me;
                _find_path_method := cache_hit (token, strict) path (_find_path_method me) |} in
      ret path
  | None =>
      let! path := _find_path fuel self token strict in
      let! _ := put_injector self
             {| _injections := _injections me;
                _find_path_method := cache_miss (token, strict) path (_find_path_method me) |} in
      ret path
  end.

(** Calling the second component of a step. *)
Definition call_step (d : option Injection) (args : list Value) (h : Heap)
  : Result Value * Heap :=
  match d with
  | Some i => deliver_injection i args h
  | None => (Raise TypeError, h)
  end.

(** The [for] loop of [deliver] over the steps it is given:
    [instances.append(deliver(reversed(instances[index:index + argn])))]
    then [index += argn]. *)
Fixpoint run_path (steps : list Step) (instances : list Value) (index : nat) (h : Heap)
  : Result (list Value * nat) * Heap :=
  match steps with
  | [] => (Ok (instances, index), h)
  | (argn, d) :: steps' =>
      match call_step d (rev (take argn (drop index instances))) h with
      | (Ok v, h') => run_path steps' (instances ++ [v]) (index + argn) h'
      | (Raise e, h') => (Raise e, h')
      | (OutOfFuel, h') => (OutOfFuel, h')
      end
  end.

Definition deliver (fuel : nat) (self : nat) (token : Token) (strict : bool) : M Value :=
  let! path := find_path_method fuel self token strict in
  let! r := on_heap (run_path (rev path) [] 0) in
  match last r.1 with                                   (* instances[-1] *)
  | Some v => ret v
  | None => raise IndexError
  end.

(** ** The dependency expansion, level by level *)

(** A node of the expansion: the injection bound to a token, with the
    ingredient tokens it declares. *)
Definition Node : Type := Injection * list Token.

Definition bound (injections : gmap Token Injection) (token : Token) (n : Node) : Prop :=
  injections !! token = Some n.1 ∧ ingredients n.1 = Ok n.2.

(** [expansion injections queue rows]: every token of [queue] is bound, the
    ingredients of the whole level, in order, form the next level, and after
    finitely many levels nothing is left to resolve. *)
Inductive expansion (injections : gmap Token Injection)
  : list Token → list (list Node) → Prop :=
  | expansion_done : expansion injections [] []
  | expansion_level queue row rows :
      queue ≠ [] →
      Forall2 (bound injections) queue row →
      expansion injections (concat (row.*2)) rows →
      expansion injections queue (row :: rows).

(** The step the planner emits for a node. *)
Definition step_of (n : Node) : Step := (length n.2, Some n.1).

(** The breadth-first plan of an expansion: its levels one after the other. *)
Definition plan_of (rows : list (list Node)) : Path := step_of <$> concat rows.

(** Delivering one level, last node first.  [values] are the values of the
    next level, that is of the ingredients of this level in order: the first
    node owns as many of them as it declares ingredients, the rest belongs to
    the nodes after it. *)
Fixpoint deliver_row (row : list Node) (values : list Value) (h : Heap)
  : Result (list Value) * Heap :=
  match row with
  | [] => (Ok [], h)
  | (injection, ings) :: row' =>
      match deliver_row row' (drop (length ings) values) h with
      | (Ok vs, h1) =>
          match deliver_injection injection (take (length ings) values) h1 with
          | (Ok v, h2) => (Ok (v :: vs), h2)
          | (Raise e, h2) => (Raise e, h2)
          | (OutOfFuel, h2) => (OutOfFuel, h2)
          end
      | (Raise e, h1) => (Raise e, h1)
      | (OutOfFuel, h1) => (OutOfFuel, h1)
      end
  end.

(** Delivering an expansion: the deeper levels first, then the level itself
    from the values of the level below. *)
Fixpoint deliver_rows (rows : list (list Node)) (h : Heap) : Result (list Value) * Heap :=
  match rows with
  | [] => (Ok [], h)
  | row :: rows' =>
      match deliver_rows rows' h with
      | (Ok values, h1) => deliver_row row values h1
      | (Raise e, h1) => (Raise e, h1)
      | (OutOfFuel, h1) => (OutOfFuel, h1)
      end
  end.

(** The value of the first (root) token of a delivered level. *)
Definition root_value (r : Result (list Value)) : Result Value :=
  match r with
  | Ok (v :: _) => Ok v
  | Ok [] => Raise IndexError
  | Raise e => Raise e
  | OutOfFuel => OutOfFuel
  end.

(** [m] is the dictionary the plan of [(token, strict)] comes from: the
    dictionary the cached plan was computed from, or, when no plan is cached,
    the dictionary the injector refers to now. *)
Definition planned_by (me : InjectorObj) (w : World) (token : Token) (strict : bool)
    (m : gmap Token Injection) : Prop :=
  match cache_get (token, strict) (_find_path_method me) with
  | Some path => ∃ fuel, find_path_loop fuel m strict [token] [] = Ok path
  | None => dicts w !! _injections me = Some m
  end.

Definition planned_from (w : World) (self : nat) (token : Token) (strict : bool)
    (m : gmap Token Injection) : Prop :=
  ∃ me, injectors w !! self = Some me ∧ planned_by me w token strict m.

(** ** A small program to run the definitions on *)

(** A class whose instances keep their constructor arguments. *)
Definition instantiate (id : N) : Callable :=
  λ args h, (Ok (VRef (length h)), [Alloc (OInstance id args)]).

Definition self_param : Param :=
  {| p_name := "self"; p_kind := Positional; p_annotation := None |}.

Definition param (name : string) (t : Token) : Param :=
  {| p_name := name; p_kind := Positional; p_annotation := Some t |}.

Definition init_def (params : list Param) : InitKind :=
  DefInit {| fn_name := "__init__"; fn_params := self_param :: params;
             fn_return := None; fn_call := λ _ _, (Ok VNone, []) |}.

Definition MyRepository : PyClass :=
  {| cls_id := 1; cls_init := ObjectInit; cls_new := instantiate 1 |}.

Definition MyService : PyClass :=
  {| cls_id := 2; cls_init := init_def [param "repository" (TClass 1)];
     cls_new := instantiate 2 |}.

Definition MyAdapter : PyClass :=
  {| cls_id := 3; cls_init := init_def [param "service" (TClass 2)];
     cls_new := instantiate 3 |}.

Definition MyFacade : PyClass :=
  {| cls_id := 4;
     cls_init := init_def [param "service" (TClass 2); param "adapter" (TClass 3)];
     cls_new := instantiate 4 |}.

Definition builtin_class (id : N) : PyClass :=
  {| cls_id := id; cls_init := ObjectInit; cls_new := instantiate id |}.

Definition ex_classes (t : Token) : PyClass :=
  match t with
  | TClass 1 => MyRepository
  | TClass 2 => MyService
  | TClass 3 => MyAdapter
  | TClass 4 => MyFacade
  | TClass id => builtin_class id
  | TAlias _ id => {| cls_id := id; cls_init := SlotInit;
                      cls_new := λ _ _, (Raise TypeError, []) |}
  | TStr _ => {| cls_id := 0; cls_init := SlotInit;
                 cls_new := λ _ _, (Raise TypeError, []) |}
  end.

Definition empty_world : World :=
  {| classes := ex_classes; heap := []; dicts := []; injectors := [] |}.

(** Running a method for its world only. *)
Definition exec {A} (m : M A) (w : World) : World := (m w).2.

(** [injector = Injector()]; injector.prepare(MyFacade); ...(MyService);
    ...(MyRepository); ...(MyAdapter)], as in the test of deep dependencies. *)
Definition ex_deep_world : World :=
  exec (let! i := Injector_init in
        let! _ := prepare i (TClass 4) SNone in
        let! _ := prepare i (TClass 2) SNone in
        let! _ := prepare i (TClass 1) SNone in
        prepare i (TClass 3) SNone) empty_world.

Definition ex_deep_injections : gmap Token Injection :=
  <[TClass 3 := ClassInjection MyAdapter]>
    (<[TClass 1 := ClassInjection MyRepository]>
      (<[TClass 2 := ClassInjection MyService]>
        (<[TClass 4 := ClassInjection MyFacade]> ∅))).

(** The expansion of [MyFacade]: the facade; its service and its adapter;
    the repository of the service and the service of the adapter; the
    repository of that service. *)
Definition ex_deep_rows : list (list Node) :=
  [ [(ClassInjection MyFacade, [TClass 2; TClass 3])];
    [(ClassInjection MyService, [TClass 1]); (ClassInjection MyAdapter, [TClass 2])];
    [(ClassInjection MyRepository, []); (ClassInjection MyService, [TClass 1])];
    [(ClassInjection MyRepository, [])] ].

(** What the three tests of the origin in [prepare] come to: the container
    they pick, no container, or the [TypeError] of [issubclass]. *)
Definition container_kind (token : Token) : Result (option SeqKind) :=
  match token with
  | TAlias OriginList _ => Ok (Some KList)
  | TAlias OriginTuple _ => Ok (Some KTuple)
  | TAlias OriginSet _ => Ok (Some KSet)
  | TAlias OriginNotClass _ => Raise TypeError
  | TAlias OriginOther _ | TClass _ | TStr _ => Ok None
  end.





(** [def create_service(argument): ...], from the test of unannotated
    functions. *)
Definition create_service_bare : PyFunction :=
  {| fn_name := "create_service";
     fn_params := [{| p_name := "argument"; p_kind := Positional; p_annotation := None |}];
     fn_return := None;
     fn_call := instantiate 2 |}.


(** A world with one fresh injector. *)
Definition ex_fresh_world : World := exec Injector_init empty_world.

(** ** The dependency graph of a dictionary *)

(** [requires1 m t u]: [t] is bound and [u] is one of its ingredients. *)
Definition requires1 (m : gmap Token Injection) (t u : Token) : Prop :=
  ∃ injection ings, m !! t = Some injection ∧ ingredients injection = Ok ings ∧ u ∈ ings.

(** Every binding lists its ingredients. *)
Definition lists_ingredients (injection : Injection) : Prop :=
  ∃ ings, ingredients injection = Ok ings.

Definition readable (m : gmap Token Injection) : Prop :=
  map_Forall (λ _ injection, lists_ingredients injection) m.

#[global] Instance lists_ingredients_dec injection : Decision (lists_ingredients injection).
Proof.
  unfold lists_ingredients.
  destruct (ingredients injection) as [ings|e|];
    [left; by exists ings | right; by intros [? ?] | right; by intros [? ?]].
Defined.

#[global] Instance readable_dec m : Decision (readable m).
Proof. unfold readable. apply _. Defined.

(** Every token the root requires, directly or not, is bound to an injection
    that lists its ingredients. *)
Definition fully_configured (m : gmap Token Injection) (root : Token) : Prop :=
  ∀ t, rtc (requires1 m) root t → ∃ n, bound m t n.

(** No token the root requires requires itself. *)
Definition acyclic (m : gmap Token Injection) (root : Token) : Prop :=
  ∀ t, rtc (requires1 m) root t → ¬ tc (requires1 m) t t.

(** [expands m queue n]: expanding every token of [queue] down to tokens
    that stop the loop takes [n] turns in all. *)
Inductive expands (m : gmap Token Injection) : list Token → nat → Prop :=
  | expands_nil : expands m [] 0
  | expands_stop t queue n :
      (∀ node, ¬ bound m t node) → expands m queue n → expands m (t :: queue) (S n)
  | expands_node t injection ings queue n k :
      m !! t = Some injection → ingredients injection = Ok ings →
      expands m ings n → expands m queue k → expands m (t :: queue) (S (n + k)).

(** The state of the [while] loop after [n] turns, if it is still running. *)
Fixpoint find_path_iter (n : nat) (injections : gmap Token Injection) (strict : bool)
    (queue : list Token) (path : Path) : option (list Token * Path) :=
  match n with
  | 0 => Some (queue, path)
  | S n =>
      match find_path_step injections strict queue path with
      | inl (queue', path') => find_path_iter n injections strict queue' path'
      | inr _ => None
      end
  end.

(** "The work queue grows without bound": whatever the bound, some turn of
    the loop sees a longer queue. *)
Definition queue_unbounded (injections : gmap Token Injection) (strict : bool)
    (root : Token) : Prop :=
  ∀ bound, ∃ n queue path,
    find_path_iter n injections strict [root] [] = Some (queue, path) ∧
    bound < length queue.

(** [def make(again: T0): ...] bound to [T0] itself. *)
Definition make_again : PyFunction :=
  {| fn_name := "make";
     fn_params := [param "again" (TClass 0)];
     fn_return := None;
     fn_call := instantiate 0 |}.

Definition ex_loop_injections : gmap Token Injection :=
  {[ TClass 0 := FunctionInjection make_again ]}.

(** Two checkable conditions on a dictionary.  [closed]: every binding lists
    its ingredients and every ingredient is bound.  [ranked]: ingredients
    rank strictly below the token that declares them. *)
Definition node_closed (m : gmap Token Injection) (injection : Injection) : Prop :=
  match ingredients injection with
  | Ok ings => Forall (λ u, is_Some (m !! u)) ings
  | _ => False
  end.

Definition closed (m : gmap Token Injection) : Prop :=
  map_Forall (λ _ injection, node_closed m injection) m.

Definition node_ranked (rank : Token → nat) (t : Token) (injection : Injection) : Prop :=
  match ingredients injection with
  | Ok ings => Forall (λ u, rank u < rank t) ings
  | _ => True
  end.

Definition ranked (rank : Token → nat) (m : gmap Token Injection) : Prop :=
  map_Forall (node_ranked rank) m.

#[global] Instance node_closed_dec m injection : Decision (node_closed m injection).
Proof. unfold node_closed. destruct (ingredients injection); apply _. Defined.

#[global] Instance node_ranked_dec rank t injection : Decision (node_ranked rank t injection).
Proof. unfold node_ranked. destruct (ingredients injection); apply _. Defined.

#[global] Instance closed_dec m : Decision (closed m).
Proof. unfold closed. apply _. Defined.

#[global] Instance ranked_dec rank m : Decision (ranked rank m).
Proof. unfold ranked. apply _. Defined.

Definition class_rank (t : Token) : nat :=
  match t with TClass n => N.to_nat n | TAlias _ _ | TStr _ => 0 end.

(** [def create_facade(gateway: T9): ...] *)
Definition create_from_gateway : PyFunction :=
  {| fn_name := "create_facade";
     fn_params := [param "gateway" (TClass 9)];
     fn_return := None;
     fn_call := instantiate 4 |}.

(** [MyService] is prepared without its repository. *)
Definition ex_missing_world : World :=
  exec (let! i := Injector_init in
        prepare i (TClass 2) SNone) empty_world.

(** [MyService] is prepared with its repository and delivered once; then its
    token is bound again, to a function of a gateway that is not prepared. *)
Definition ex_stale_world : World :=
  exec (let! i := Injector_init in
        let! _ := prepare i (TClass 1) SNone in
        let! _ := prepare i (TClass 2) SNone in
        let! _ := deliver 3 i (TClass 2) true in
        prepare i (TClass 2) (SFunction create_from_gateway)) empty_world.

(** ** Registrations and views *)

(** A call of one of the two registration methods. *)
Inductive Registration :=
  | Prepare (token : Token) (value : Source)
  | PrepareInjection (token : Token) (injection : Source).

Definition register (self : nat) (r : Registration) : M unit :=
  match r with
  | Prepare token value => prepare self token value
  | PrepareInjection token injection => prepare_injection self token injection
  end.

Definition registered_token (r : Registration) : Token :=
  match r with
  | Prepare token _ => token
  | PrepareInjection token _ => token
  end.

(** A run of registrations on one injector; a registration that raises is
    caught and the run goes on. *)
Definition register_all (self : nat) (rs : list Registration) (w : World) : World :=
  foldl (λ w r, exec (register self r) w) w rs.

(** What an injector can see of the world: the heap, its own object and the
    dictionary its [_injections] refers to. *)
Definition same_view (self : nat) (w w' : World) : Prop :=
  heap w = heap w' ∧
  injectors w !! self = injectors w' !! self ∧
  ∀ me, injectors w !! self = Some me →
        dicts w !! _injections me = dicts w' !! _injections me.

(** [parent = Injector(); parent.prepare(str, 'alice')], from the test of
    [create]; the class [str] is token 7. *)
Definition ex_parent_world : World :=
  exec (let! parent := Injector_init in
        prepare parent (TClass 7) (SObject (VStr "alice"))) empty_world.

(** ** Runs of calls *)

Inductive Call :=
  | CallRegister (self : nat) (r : Registration)
  | CallDeliver (fuel : nat) (self : nat) (token : Token) (strict : bool)
  | CallCreate (self : nat).

(** The world a call leaves, whether it returns or raises. *)
Definition run_call (c : Call) (w : World) : World :=
  match c with
  | CallRegister self r => exec (register self r) w
  | CallDeliver fuel self token strict => exec (deliver fuel self token strict) w
  | CallCreate self => exec (create self) w
  end.

Definition run_calls (cs : list Call) (w : World) : World :=
  foldl (λ w c, run_call c w) w cs.

(** A delivery by [self] of a pair other than [key]. *)
Definition other_delivery (self : nat) (key : CacheKey) (c : Call) : bool :=
  match c with
  | CallDeliver _ s t b => bool_decide (s = self) && negb (bool_decide ((t, b) = key))
  | _ => false
  end.

Definition other_deliveries (self : nat) (key : CacheKey) (cs : list Call) : nat :=
  length (filter (λ c, other_delivery self key c = true) cs).

(** The number of entries used more recently than [key]. *)
Fixpoint cache_rank (key : CacheKey) (c : Cache) : nat :=
  match c with
  | [] => 0
  | (k, _) :: c' => if bool_decide (k = key) then 0 else S (cache_rank key c')
  end.

(** The plan [path] is cached for [key] by injector [self], with room for
    [n] more deliveries of other pairs before it can be dropped. *)
Definition plan_cached (path : Path) (key : CacheKey) (self : nat) (n : nat) (w : World)
  : Prop :=
  ∃ me, injectors w !! self = Some me ∧
        cache_get key (_find_path_method me) = Some path ∧
        cache_rank key (_find_path_method me) + n < lru_maxsize.

(** An injector with ['alice'] bound to [str] and 128 further tokens bound
    to numbers. *)
Definition ex_other_tokens : list Token :=
  (λ n, TClass (1000 + N.of_nat n)) <$> seq 0 128.

Definition ex_crowded_world : World :=
  run_calls
    (CallRegister 0 (Prepare (TClass 7) (SObject (VStr "alice")))
     :: ((λ t, CallRegister 0 (Prepare t (SObject (VInt 0)))) <$> ex_other_tokens))
    ex_fresh_world.

(** Each of the other tokens is delivered once, then [str] is bound to
    ['boris']. *)
Definition ex_crowding_calls : list Call :=
  ((λ t, CallDeliver 2 0 t true) <$> ex_other_tokens)
  ++ [CallRegister 0 (Prepare (TClass 7) (SObject (VStr "boris")))].




(** ** Resolution as a recursion over the dependency tree *)



(** Two expansions side by side, level by level. *)
Fixpoint merge_rows (rows1 rows2 : list (list Node)) : list (list Node) :=
  match rows1, rows2 with
  | [], _ => rows2
  | _, [] => rows1
  | row1 :: rows1', row2 :: rows2' => (row1 ++ row2) :: merge_rows rows1' rows2'
  end.

(** ** Further notions for the planner and the executor *)

(** The sum of the ingredient counts of a path. *)
Definition total_argn (path : Path) : nat := sum_list_with fst path.

(** A step as [_find_path] builds it for a bound token: the number of
    ingredients of an injection of the dictionary, with that injection. *)
Definition step_from (m : gmap Token Injection) (s : Step) : Prop :=
  ∃ t injection ings,
    m !! t = Some injection ∧ ingredients injection = Ok ings ∧
    s = (length ings, Some injection).

(** [def create_service(repository: MyRepository)], bound in place of the
    class [MyService]. *)
Definition create_service_from_repository : PyFunction :=
  {| fn_name := "create_service";
     fn_params := [param "repository" (TClass 1)];
     fn_return := None;
     fn_call := instantiate 2 |}.

(** [def broken(): raise ...] *)
Definition broken_factory : PyFunction :=
  {| fn_name := "broken";
     fn_params := [];
     fn_return := None;
     fn_call := λ _ _, (Raise (UserError 1), []) |}.

Definition ex_broken_world : World :=
  exec (let! i := Injector_init in
        prepare i (TClass 20) (SFunction broken_factory)) empty_world.

(** [lambda: MyService()] and [lambda argument: MyService()], from the tests
    of lambdas. *)
Definition lambda_service : PyFunction :=
  {| fn_name := "<lambda>";
     fn_params := [];
     fn_return := None;
     fn_call := λ _ h, instantiate 2 [] h |}.

Definition lambda_with_argument : PyFunction :=
  {| fn_name := "<lambda>";
     fn_params := [{| p_name := "argument"; p_kind := Positional; p_annotation := None |}];
     fn_return := None;
     fn_call := instantiate 2 |}.

(** The dictionary an injector refers to. *)
Definition registry (w : World) (self : nat) : option (gmap Token Injection) :=
  match injectors w !! self with
  | Some me => dicts w !! _injections me
  | None => None
  end.

(** Every plan in the cache of an injector is a plan of the dictionary the
    injector refers to now. *)
Definition cache_sound (w : World) (self : nat) : Prop :=
  ∃ me m,
    injectors w !! self = Some me ∧
    dicts w !! _injections me = Some m ∧
    ∀ t s path,
      cache_get (t, s) (_find_path_method me) = Some path →
      ∃ fuel, find_path_loop fuel m s [t] [] = Ok path.

(** A call other than a registration. *)
Definition no_registration (c : Call) : Prop :=
  match c with
  | CallRegister _ _ => False
  | _ => True
  end.

(** ** inject *)

(** Keyword arguments, handed through as they are. *)
Definition Kwargs : Type := list (string * Value).

(** The target of [inject]: its parameters, as [signature(target)] lists
    them, and what calling it with positional and keyword arguments does. *)
Record PyTarget := {
  target_params : list Param;
  target_call : list Value → Kwargs → Heap → Result Value * list HeapOp
}.

(** [p.annotation]: the annotation of the parameter, or the marker
    [inspect.Parameter.empty] when it has none. *)
Definition annotation_or (empty : Token) (p : Param) : Token :=
  default empty (p_annotation p).

(** [tuple(self.deliver(p.annotation, strict) for p in parameters)] *)
Fixpoint deliver_each (fuel : nat) (self : nat) (tokens : list Token) (strict : bool)
  : M (list Value) :=
  match tokens with
  | [] => ret []
  | token :: tokens' =>
      let! v := deliver fuel self token strict in
      let! vs := deliver_each fuel self tokens' strict in
      ret (v :: vs)
  end.

(** The inner function [_resolve_args] of [inject]. *)
Definition _resolve_args (empty : Token) (fuel : nat) (self : nat) (target : PyTarget)
    (skip : nat) (strict : bool) (args : list Value) : M (list Value) :=
  let parameters := drop skip (target_params target) in
  let! dependencies :=
    deliver_each fuel self (annotation_or empty <$> parameters) strict in
  ret (args ++ dependencies).

Definition call_target (target : PyTarget) (args : list Value) (kwargs : Kwargs)
  : M Value :=
  on_heap (λ h, let '(r, ops) := target_call target args kwargs h in
                (r, apply_ops h ops)).

(** The wrapper [inject] returns, run on [args] and [kwargs].  The wrapper
    for a coroutine function resolves the same arguments and awaits the
    target; run to completion it is this function too. *)
Definition inject (empty : Token) (fuel : nat) (self : nat) (target : PyTarget)
    (skip : nat) (strict : bool) (args : list Value) (kwargs : Kwargs) : M Value :=
  let! args := _resolve_args empty fuel self target skip strict args in
  call_target target args kwargs.

(** [def target(a, b, service: str): return service], after the test of
    [inject]; the class [str] is token 7. *)
Definition ex_target : PyTarget :=
  {| target_params :=
       [{| p_name := "a"; p_kind := Positional; p_annotation := None |};
        {| p_name := "b"; p_kind := Positional; p_annotation := None |};
        param "service" (TClass 7)];
     target_call := λ args _ _, (Ok (default VNone (last args)), []) |}.




(** ** What the built-in containers hold *)




(** ** Parameters in the order of the syntax *)







(** What is handed to [prepare] has no [len]: a class, a function, a method,
    [None] or a number. *)
Definition unsized (value : Source) : Prop :=
  match value with
  | SType _ | SFunction _ | SMethod _ | SNone | SObject VNone | SObject (VInt _) => True
  | _ => False
  end.

(** * Properties *)

(** ** Outcomes and fuel *)

Lemma find_path_loop_more fuel injections strict queue path r :
  find_path_loop fuel injections strict queue path = r →
  halts r →
  ∀ fuel', fuel ≤ fuel' →
  find_path_loop fuel' injections strict queue path = r.
Proof.
  revert queue path.
  induction fuel as [|fuel IH]; intros queue path Hr Hh fuel' Hle.
  - simpl in Hr. subst r. done.
  - destruct fuel' as [|fuel']; [lia|].
    simpl in *.
    destruct (find_path_step injections strict queue path) as [[q' p']|r']; [|done].
    apply IH; [done | done | lia].
Qed.

Lemma find_path_loop_agree f1 f2 injections strict queue path p1 p2 :
  find_path_loop f1 injections strict queue path = Ok p1 →
  find_path_loop f2 injections strict queue path = Ok p2 →
  p1 = p2.
Proof.
  intros H1 H2.
  pose proof (find_path_loop_more _ _ _ _ _ _ H1 I (f1 `max` f2)) as H1'.
  pose proof (find_path_loop_more _ _ _ _ _ _ H2 I (f1 `max` f2)) as H2'.
  rewrite H1' in H2' by lia. specialize (H2' ltac:(lia)). congruence.
Qed.

(** ** The executor, step by step *)

Lemma run_path_app s1 s2 instances index h :
  run_path (s1 ++ s2) instances index h =
  match run_path s1 instances index h with
  | (Ok (instances', index'), h') => run_path s2 instances' index' h'
  | (Raise e, h') => (Raise e, h')
  | (OutOfFuel, h') => (OutOfFuel, h')
  end.
Proof.
  revert instances index h.
  induction s1 as [|[argn d] s1 IH]; intros instances index h; simpl; [done|].
  destruct (call_step d _ h) as [[v|e|] h']; auto.
Qed.

Lemma deliver_row_length row : ∀ values h vs h',
  deliver_row row values h = (Ok vs, h') → length vs = length row.
Proof.
  induction row as [|[injection ings] row IH]; intros values h vs h' H; simpl in H.
  - by inversion H.
  - destruct (deliver_row row _ h) as [[vs1|e|] h1] eqn:E; try done.
    destruct (deliver_injection injection _ h1) as [[v|e|] h2]; try done.
    inversion H; subst. simpl. f_equal. eauto.
Qed.

(** Running the steps of one level, in reverse, on a buffer that ends with
    the reversed values of the level below: every node is handed exactly the
    values of its own ingredients, in declared order. *)
Lemma run_path_row row : ∀ values X I0 h,
  length values = length (concat (row.*2)) →
  run_path (rev (step_of <$> row)) (I0 ++ rev values ++ X) (length I0) h =
  match deliver_row row values h with
  | (Ok vs, h') =>
      (Ok (I0 ++ rev values ++ X ++ rev vs, length I0 + length values), h')
  | (Raise e, h') => (Raise e, h')
  | (OutOfFuel, h') => (OutOfFuel, h')
  end.
Proof.
  induction row as [|[injection ings] row IH]; intros values X I0 h Hlen.
  - simpl in *. destruct values; [|done]. simpl.
    by rewrite !app_nil_r, Nat.add_0_r.
  - change (concat (((injection, ings) :: row).*2))
      with (ings ++ concat (row.*2)) in Hlen.
    rewrite length_app in Hlen.
    change (step_of <$> (injection, ings) :: row)
      with ((length ings, Some injection) :: (step_of <$> row)).
    cbn [rev deliver_row].
    rewrite run_path_app.
    set (n := length ings) in *.
    assert (Hsplit : values = take n values ++ drop n values)
      by (by rewrite take_drop).
    assert (Hmine : length (take n values) = n) by (rewrite length_take; lia).
    assert (Hothers : length (drop n values) = length (concat (row.*2)))
      by (rewrite length_drop; lia).
    assert (Hrev : rev values = rev (drop n values) ++ rev (take n values))
      by (by rewrite <- rev_app_distr, take_drop).
    replace (I0 ++ rev values ++ X)
      with (I0 ++ rev (drop n values) ++ (rev (take n values) ++ X))
      by (by rewrite Hrev, <- !app_assoc).
    rewrite (IH (drop n values) (rev (take n values) ++ X) I0 h Hothers).
    destruct (deliver_row row (drop n values) h) as [[vs|e|] h1]; [|done|done].
    cbn [run_path call_step].
    replace (take n (drop (length I0 + length (drop n values))
               (I0 ++ rev (drop n values) ++ (rev (take n values) ++ X) ++ rev vs)))
      with (rev (take n values)).
    2:{ rewrite drop_app_ge by lia.
        rewrite drop_app_ge by (rewrite length_rev; lia).
        replace (length I0 + length (drop n values) - length I0
                 - length (rev (drop n values))) with 0
          by (rewrite length_rev; lia).
        rewrite drop_0. rewrite <- app_assoc.
        rewrite take_app_length'; [done|]. by rewrite length_rev. }
    rewrite rev_involutive.
    destruct (deliver_injection injection (take n values) h1) as [[v|e|] h2];
      [|done|done].
    rewrite Hrev. simpl. rewrite <- !app_assoc.
    do 3 f_equal. lia.
Qed.

(** Running the whole reversed plan of an expansion. *)
Lemma run_path_rows injections queue rows :
  expansion injections queue rows →
  ∀ h,
  match deliver_rows rows h with
  | (Ok values, h') =>
      length values = length queue ∧
      ∃ I0, run_path (rev (plan_of rows)) [] 0 h = (Ok (I0 ++ rev values, length I0), h')
  | (Raise e, h') => run_path (rev (plan_of rows)) [] 0 h = (Raise e, h')
  | (OutOfFuel, h') => run_path (rev (plan_of rows)) [] 0 h = (OutOfFuel, h')
  end.
Proof.
  induction 1 as [|queue row rows Hne Hrow Hexp IH]; intros h.
  - simpl. split; [done|]. by exists [].
  - unfold plan_of. cbn [concat deliver_rows].
    rewrite fmap_app, rev_app_distr, run_path_app.
    fold (plan_of rows).
    specialize (IH h).
    destruct (deliver_rows rows h) as [[values|e|] h1]; [|by rewrite IH|by rewrite IH].
    destruct IH as [Hlen [I0 ->]].
    pose proof (run_path_row row values [] I0 h1 Hlen) as Hr.
    rewrite app_nil_r in Hr. rewrite Hr.
    destruct (deliver_row row values h1) as [[vs|e|] h2] eqn:Erow; [|done|done].
    split.
    + apply deliver_row_length in Erow. rewrite Erow.
      symmetry. eapply Forall2_length, Hrow.
    + exists (I0 ++ rev values). rewrite length_app, length_rev.
      by rewrite app_nil_l, <- app_assoc.
Qed.

(** ** The planner is breadth first *)

Lemma find_path_level injections strict row : ∀ queue pending path fuel,
  Forall2 (bound injections) queue row →
  find_path_loop (length row + fuel) injections strict (queue ++ pending) path =
  find_path_loop fuel injections strict (pending ++ concat (row.*2))
    (path ++ (step_of <$> row)).
Proof.
  induction row as [|[injection ings] row IH]; intros queue pending path fuel Hrow.
  - apply Forall2_nil_inv_r in Hrow as ->. simpl. by rewrite !app_nil_r.
  - apply Forall2_cons_inv_r in Hrow as (token & queue' & [Hget Hing] & Hrow & ->).
    simpl in Hget, Hing.
    cbn [length Nat.add app find_path_loop find_path_step].
    rewrite Hget, Hing.
    rewrite <- app_assoc.
    rewrite (IH queue' (pending ++ ings) _ fuel Hrow).
    cbn [fmap list_fmap concat snd step_of fst].
    by rewrite <- !app_assoc.
Qed.

Lemma find_path_expansion injections strict queue rows :
  expansion injections queue rows →
  ∀ path fuel,
  find_path_loop (length (concat rows) + S fuel) injections strict queue path =
  Ok (path ++ plan_of rows).
Proof.
  induction 1 as [|queue row rows Hne Hrow Hexp IH]; intros path fuel.
  - simpl. by rewrite app_nil_r.
  - cbn [concat]. rewrite length_app, <- Nat.add_assoc.
    rewrite <- (app_nil_r queue).
    rewrite (find_path_level _ _ _ _ [] _ _ Hrow).
    rewrite app_nil_l, IH.
    unfold plan_of. cbn [concat]. by rewrite fmap_app, app_assoc.
Qed.

Lemma find_path_plan injections strict token rows fuel :
  expansion injections [token] rows →
  length (concat rows) < fuel →
  find_path_loop fuel injections strict [token] [] = Ok (plan_of rows).
Proof.
  intros Hexp Hlt.
  replace fuel with (length (concat rows) + S (fuel - S (length (concat rows)))) by lia.
  by rewrite (find_path_expansion _ _ _ _ Hexp).
Qed.

(** ** The cached planner *)

Lemma cache_get_hit key p c : cache_get key (cache_hit key p c) = Some p.
Proof. unfold cache_hit. simpl. by rewrite bool_decide_eq_true_2. Qed.

Lemma cache_get_miss key p c : cache_get key (cache_miss key p c) = Some p.
Proof. unfold cache_miss. simpl. by rewrite bool_decide_eq_true_2. Qed.

(** The wrapper answers with the plan of the dictionary the plan comes
    from, whether it finds it or computes it, and leaves it cached. *)
Lemma find_path_method_plan w self me m token strict path fuel :
  injectors w !! self = Some me →
  planned_by me w token strict m →
  find_path_loop fuel m strict [token] [] = Ok path →
  ∃ c',
    find_path_method fuel self token strict w =
      (Ok path,
       set_injectors
         (<[self := {| _injections := _injections me; _find_path_method := c' |}]>
            (injectors w)) w) ∧
    cache_get (token, strict) c' = Some path.
Proof.
  intros Hme Hby Hloop. unfold planned_by in Hby.
  unfold find_path_method, bind, get_injector. rewrite Hme.
  destruct (cache_get (token, strict) (_find_path_method me)) as [cached|] eqn:Ec.
  - destruct Hby as [fuel0 Hc].
    assert (cached = path) as -> by (eapply find_path_loop_agree; eauto).
    eexists. split; [reflexivity|]. apply cache_get_hit.
  - unfold _find_path, bind, get_injector, get_dict, of_result.
    rewrite Hme, Hby, Hloop.
    eexists. split; [reflexivity|]. apply cache_get_miss.
Qed.

(** C1.  Let [m] be the dictionary the plan of [(token, strict)] comes from.
    If the expansion of the token in [m] is finite and fully configured, the
    plan is the breadth-first listing of the expansion, and executing it in
    reverse gives every injection the values of its own declared ingredients
    in declared order ([deliver_rows]); the value returned is the one
    produced for the root. *)
Theorem deliver_declared_order w self m token strict rows fuel :
  planned_from w self token strict m →
  expansion m [token] rows →
  length (concat rows) < fuel →
  find_path_loop fuel m strict [token] [] = Ok (plan_of rows) ∧
  (find_path_method fuel self token strict w).1 = Ok (plan_of rows) ∧
  (deliver fuel self token strict w).1 = root_value (deliver_rows rows (heap w)).1 ∧
  heap (deliver fuel self token strict w).2 = (deliver_rows rows (heap w)).2.
Proof.
  intros (me & Hme & Hby) Hexp Hfuel.
  pose proof (find_path_plan _ strict _ _ _ Hexp Hfuel) as Hplan.
  split; [done|].
  destruct (find_path_method_plan _ _ _ _ _ _ _ _ Hme Hby Hplan) as (c' & Hm & _).
  split; [by rewrite Hm|].
  unfold deliver, bind. rewrite Hm.
  unfold on_heap. cbn [heap set_injectors].
  pose proof (run_path_rows _ _ _ Hexp (heap w)) as Hrun.
  destruct (deliver_rows rows (heap w)) as [[values|e|] h'].
  - destruct Hrun as [Hlen [I0 ->]]. cbn [fst snd].
    destruct values as [|v [|? ?]]; [done| |done].
    simpl. rewrite last_snoc. done.
  - by rewrite Hrun.
  - by rewrite Hrun.
Qed.

Lemma ex_deep_expansion : expansion ex_deep_injections [TClass 4] ex_deep_rows.
Proof.
  repeat first
    [ apply expansion_done
    | apply expansion_level;
      [ done | repeat constructor | cbn [concat fmap list_fmap snd app] ] ].
Qed.

(** The facade of the deep-dependency test is delivered last, at the sixth
    location, from its own service and adapter. *)
Lemma deliver_declared_order_witness :
  (deliver 7 0 (TClass 4) true ex_deep_world).1 = Ok (VRef 5) ∧
  heap (deliver 7 0 (TClass 4) true ex_deep_world).2 !! 5
    = Some (OInstance 4 [VRef 4; VRef 3]).
Proof.
  destruct (deliver_declared_order ex_deep_world 0 ex_deep_injections
              (TClass 4) true ex_deep_rows 7)
    as (_ & _ & Hv & Hh).
  - exists {| _injections := 0; _find_path_method := [] |}.
    split; reflexivity.
  - apply ex_deep_expansion.
  - vm_compute. lia.
  - rewrite Hv, Hh. split; reflexivity.
Defined.

(** ** Non-strict delivery of an unconfigured token *)

(** C2.  On an unconfigured token the non-strict planner appends the
    placeholder and then reads [ingredients] of [None]: [deliver] leaves with
    [AttributeError] instead of returning [None]. *)
Theorem deliver_nonstrict_unconfigured w self me m token fuel :
  injectors w !! self = Some me →
  dicts w !! _injections me = Some m →
  m !! token = None →
  cache_get (token, false) (_find_path_method me) = None →
  0 < fuel →
  deliver fuel self token false w = (Raise AttributeError, w).
Proof.
  intros Hme Hd Hnone Hc Hfuel.
  destruct fuel as [|fuel]; [lia|].
  unfold deliver, find_path_method, _find_path, bind, get_injector, get_dict, of_result.
  rewrite Hme, Hc, Hme, Hd. simpl. by rewrite Hnone.
Qed.

Lemma deliver_nonstrict_unconfigured_witness :
  deliver 1 0 (TClass 9) false ex_fresh_world = (Raise AttributeError, ex_fresh_world).
Proof.
  apply (deliver_nonstrict_unconfigured ex_fresh_world 0
           {| _injections := 0; _find_path_method := [] |} ∅ (TClass 9) 1);
    first [ reflexivity | lia ].
Defined.

(** ** Registration *)

Lemma prepare_injection_error self token injection w e w' :
  prepare_injection self token injection w = (Raise e, w') → w' = w.
Proof.
  unfold prepare_injection, bind, get_injector, get_dict, put_dict, raise.
  destruct injection; try (by intros [= _ <-]).
  destruct (injectors w !! self) as [me|]; [|by intros [= _ <-]].
  destruct (dicts w !! _injections me); [done|by intros [= _ <-]].
Qed.

Lemma infer_injection_world token value w :
  (infer_injection token value w).2 = w.
Proof.
  unfold infer_injection, infer_plain, bind, of_result, ret, raise.
  destruct value as [i|c|f|f| |v]; try done;
    repeat case_match; simplify_eq; done.
Qed.

(** C10.  A [PreparationError] out of [prepare] or [prepare_injection]
    leaves the world, hence every dictionary of every injector, as it was. *)
Theorem preparation_error_keeps_registry self token value w w' :
  (prepare self token value w = (Raise PreparationError, w') → w' = w) ∧
  (prepare_injection self token value w = (Raise PreparationError, w') → w' = w).
Proof.
  split; [|apply prepare_injection_error].
  unfold prepare, bind.
  pose proof (infer_injection_world token value w) as Hw.
  destruct (infer_injection token value w) as [[i|e|] w1]; simpl in Hw; subst w1.
  - apply prepare_injection_error.
  - by intros [= _ <-].
  - done.
Qed.

Lemma preparation_error_keeps_registry_witness :
  prepare 0 (TClass 2) (SFunction create_service_bare) ex_fresh_world
    = (Raise PreparationError, ex_fresh_world) ∧
  prepare_injection 0 (TClass 2) (SObject (VInt 3)) ex_fresh_world
    = (Raise PreparationError, ex_fresh_world).
Proof.
  assert (H1 : ∃ w', prepare 0 (TClass 2) (SFunction create_service_bare) ex_fresh_world
                     = (Raise PreparationError, w')) by (eexists; reflexivity).
  assert (H2 : ∃ w', prepare_injection 0 (TClass 2) (SObject (VInt 3)) ex_fresh_world
                     = (Raise PreparationError, w')) by (eexists; reflexivity).
  destruct H1 as [w1 H1], H2 as [w2 H2].
  pose proof (proj1 (preparation_error_keeps_registry _ _ _ _ _) H1) as ->.
  pose proof (proj2 (preparation_error_keeps_registry _ _ _ _ _) H2) as ->.
  split; assumption.
Defined.

(** ** Ingredients read from annotations *)













Lemma prepare_injection_not_preparation_error self token i w :
  (prepare_injection self token (SInjection i) w).1 ≠ Raise PreparationError.
Proof.
  unfold prepare_injection, bind, get_injector, get_dict, put_dict.
  destruct (injectors w !! self) as [me|]; [|done].
  destruct (dicts w !! _injections me); done.
Qed.

(** How the three tests of the origin in [prepare] come out. *)
Lemma infer_injection_kind token value w :
  (∀ i, value ≠ SInjection i) →
  infer_injection token value w =
    match container_kind token with
    | Ok (Some k) => (Ok (SequenceInjection k (as_tokens value)), w)
    | Ok None => infer_plain token value w
    | Raise e => (Raise e, w)
    | OutOfFuel => (OutOfFuel, w)
    end.
Proof.
  intros Hno. unfold infer_injection.
  destruct value as [i|c|f|f| |v]; [by destruct (Hno i)|..];
    by destruct token as [?|[] ?|?].
Qed.




(** ** Class injections *)






(** ** Termination of the planner *)

Section graph.
Context (m : gmap Token Injection).

Lemma requires1_bound t u injection ings :
  requires1 m t u → m !! t = Some injection → ingredients injection = Ok ings →
  u ∈ ings.
Proof.
  intros (i & l & Hi & Hl & Hu) Hm Hing. congruence.
Qed.

Lemma requires1_dom t u : requires1 m t u → t ∈ dom m.
Proof. intros (i & l & Hi & _). apply elem_of_dom. eauto. Qed.

(** In a finite dictionary a root without cycles below it has a
    well-founded set of requirements: a chain of requirements that never
    repeats a token cannot be longer than the dictionary. *)
Lemma acyclic_chain k : ∀ (seen : gset Token) t,
  seen ⊆ dom m →
  size (dom m) ≤ size seen + k →
  (∀ s, s ∈ seen → tc (requires1 m) s t) →
  (∀ x, rtc (requires1 m) t x → ¬ tc (requires1 m) x x) →
  Acc (flip (requires1 m)) t.
Proof.
  induction k as [|k IH]; intros seen t Hsub Hsize Hseen Hacyc;
    constructor; intros u Hu; unfold flip in Hu.
  - exfalso.
    assert (Ht : t ∈ seen).
    { assert (Heq : seen ≡ dom m).
      { apply set_subseteq_size_equiv; [done|]. lia. }
      apply Heq. by eapply requires1_dom. }
    apply (Hacyc t); [done|]. by apply Hseen.
  - assert (Hnot : t ∉ seen).
    { intros Ht. apply (Hacyc t); [done|]. by apply Hseen. }
    apply (IH ({[t]} ∪ seen)).
    + apply union_subseteq. split; [|done].
      apply singleton_subseteq_l. by eapply requires1_dom.
    + rewrite size_union by set_solver. rewrite size_singleton. lia.
    + intros s [->%elem_of_singleton|Hs]%elem_of_union.
      * by apply tc_once.
      * eapply tc_r; [by apply Hseen | done].
    + intros x Hx. apply Hacyc. by eapply rtc_l.
Qed.

Lemma acyclic_acc root : acyclic m root → Acc (flip (requires1 m)) root.
Proof.
  intros Hacyc.
  apply (acyclic_chain (size (dom m)) ∅); [set_solver | lia | set_solver | done].
Qed.

Lemma expands_app q1 n1 : expands m q1 n1 → ∀ q2 n2,
  expands m q2 n2 → expands m (q1 ++ q2) (n1 + n2).
Proof.
  induction 1 as [|t queue n Hstop _ IH|t injection ings queue n k Hm Hi Hings _ _ IH];
    intros q2 n2 H2; simpl.
  - done.
  - apply expands_stop; eauto.
  - rewrite <- Nat.add_assoc. eapply expands_node; eauto.
Qed.

Lemma acc_expands t : Acc (flip (requires1 m)) t → ∃ n, expands m [t] n.
Proof.
  induction 1 as [t _ IH].
  destruct (m !! t) as [injection|] eqn:Hm.
  - destruct (ingredients injection) as [ings|e|] eqn:Hi.
    + assert (Hings : ∀ l, l ⊆ ings → ∃ n, expands m l n).
      { induction l as [|u l IHl]; intros Hl; [exists 0; constructor|].
        destruct IHl as [k Hk]; [set_solver|].
        destruct (IH u) as [n Hn].
        { exists injection, ings. split_and!; [done|done|set_solver]. }
        exists (n + k). by apply (expands_app [u] n Hn l k). }
      destruct (Hings ings) as [n Hn]; [done|].
      exists (S (n + 0)). eapply expands_node; eauto. constructor.
    + exists 1. apply expands_stop; [|constructor].
      intros node [H1 H2]. congruence.
    + exists 1. apply expands_stop; [|constructor].
      intros node [H1 H2]. congruence.
  - exists 1. apply expands_stop; [|constructor].
    intros node [H1 H2]. congruence.
Qed.

Lemma expands_halts strict fuel : ∀ queue n path,
  expands m queue n → n < fuel →
  halts (find_path_loop fuel m strict queue path).
Proof.
  induction fuel as [|fuel IH]; intros queue n path Hexp Hlt; [lia|].
  inversion Hexp as [|t q k Hstop Hq|t injection ings q k1 k2 Hm Hi Hings Hq]; subst.
  - done.
  - simpl. destruct (m !! t) as [injection|] eqn:Hm.
    + destruct (ingredients injection) as [ings|e|] eqn:Hi; [|done|].
      * exfalso. by apply (Hstop (injection, ings)).
      * exfalso. clear -Hi. by destruct injection as [| [? [] ?] | | |? []].
    + by destruct strict.
  - simpl. rewrite Hm, Hi.
    apply (IH _ (k2 + k1)); [|lia].
    by apply expands_app.
Qed.

(** Nothing is raised while every token in the queue, and everything
    below it, is configured. *)
Lemma find_path_loop_no_raise strict fuel : ∀ queue path e,
  (∀ t, t ∈ queue → fully_configured m t) →
  find_path_loop fuel m strict queue path ≠ Raise e.
Proof.
  induction fuel as [|fuel IH]; intros queue path e Hq; [done|].
  destruct queue as [|t queue]; [done|].
  destruct (Hq t (list_elem_of_here _ _) t (rtc_refl _ _)) as [[injection ings] [Hm Hi]].
  simpl in Hm, Hi. simpl. rewrite Hm, Hi.
  apply IH. intros u [Hu|Hu]%elem_of_app.
  - apply Hq. by apply list_elem_of_further.
  - intros x Hx. apply (Hq t (list_elem_of_here _ _)).
    eapply rtc_l; [|done]. by exists injection, ings.
Qed.

(** A queue that holds a token leading into a cycle never empties, and
    every turn adds one step to the path. *)
Lemma find_path_iter_cycle strict n : ∀ queue path,
  (∀ t, t ∈ queue → fully_configured m t) →
  (∃ t c, t ∈ queue ∧ rtc (requires1 m) t c ∧ tc (requires1 m) c c) →
  ∃ queue' path',
    find_path_iter n m strict queue path = Some (queue', path') ∧
    queue' ≠ [] ∧ length path' = length path + n.
Proof.
  induction n as [|n IH]; intros queue path Hq (t & c & Ht & Htc & Hc).
  { exists queue, path. split_and!; [done| |simpl; lia].
    intros ->. by apply not_elem_of_nil in Ht. }
  destruct queue as [|x queue]; [by apply not_elem_of_nil in Ht|].
  destruct (Hq x (list_elem_of_here _ _) x (rtc_refl _ _)) as [[injection ings] [Hm Hi]].
  simpl in Hm, Hi. simpl. rewrite Hm, Hi.
  destruct (IH (queue ++ ings) (path ++ [(length ings, Some injection)]))
    as (queue' & path' & Hiter & Hne & Hlen).
  - intros u [Hu|Hu]%elem_of_app.
    + apply Hq. by apply list_elem_of_further.
    + intros y Hy. apply (Hq x (list_elem_of_here _ _)).
      eapply rtc_l; [|done]. by exists injection, ings.
  - apply elem_of_cons in Ht as [->|Ht].
    2:{ exists t, c. split_and!; [|done|done]. apply elem_of_app. by left. }
    assert (∃ u, requires1 m x u ∧ rtc (requires1 m) u c) as (u & Hxu & Huc).
    { apply rtc_inv in Htc as [->|(u & Hxu & Huc)]; [|eauto].
      inversion Hc as [? ? Hcy|? y ? Hcy Hyc]; subst.
      - exists c. split; done.
      - exists y. split; [done|]. by apply tc_rtc. }
    exists u, c. split_and!; [|done|done].
    apply elem_of_app. right. by eapply requires1_bound.
  - exists queue', path'. split_and!; [done|done|].
    rewrite Hlen, length_app. simpl. lia.
Qed.

Lemma find_path_loop_iter strict n : ∀ queue path,
  is_Some (find_path_iter n m strict queue path) →
  find_path_loop n m strict queue path = OutOfFuel.
Proof.
  induction n as [|n IH]; intros queue path Hsome; [done|].
  simpl in *.
  destruct (find_path_step m strict queue path) as [[queue' path']|r].
  - by apply IH.
  - by destruct Hsome.
Qed.

(** The planner is fair: a token of the queue that requires an
    unconfigured token makes the strict planner raise [DeliveryError]. *)
Lemma find_path_reaches_unconfigured u :
  readable m → m !! u = None →
  ∀ n k queue t path,
    queue !! k = Some t → nsteps (requires1 m) n t u →
    ∃ fuel, find_path_loop fuel m true queue path = Raise DeliveryError.
Proof.
  intros Hread Hu.
  assert (Hfront : ∀ x queue path,
    (∀ injection ings, m !! x = Some injection → ingredients injection = Ok ings →
       ∃ fuel, find_path_loop fuel m true (queue ++ ings)
                 (path ++ [(length ings, Some injection)]) = Raise DeliveryError) →
    ∃ fuel, find_path_loop fuel m true (x :: queue) path = Raise DeliveryError).
  { intros x queue path Hnext.
    destruct (m !! x) as [injection|] eqn:Hm.
    - destruct (Hread _ _ Hm) as [ings Hi].
      destruct (Hnext _ _ eq_refl Hi) as [fuel Hfuel].
      exists (S fuel). simpl. by rewrite Hm, Hi.
    - exists 1. simpl. by rewrite Hm. }
  induction n as [|n IHn].
  - induction k as [|k IHk]; intros [|x queue] t path Hk Hn; try done; simpl in Hk.
    + injection Hk as ->. inversion Hn; subst.
      exists 1. simpl. by rewrite Hu.
    + apply Hfront. intros injection ings Hm Hi.
      apply (IHk (queue ++ ings) t); [by apply lookup_app_l_Some | done].
  - induction k as [|k IHk]; intros [|x queue] t path Hk Hn; try done; simpl in Hk.
    + injection Hk as ->. inversion Hn as [|? ? y ? Hxy Hyu]; subst.
      apply Hfront. intros injection ings Hm Hi.
      pose proof (requires1_bound _ _ _ _ Hxy Hm Hi) as Hy.
      apply list_elem_of_lookup in Hy as [j Hj].
      apply (IHn (length queue + j) (queue ++ ings) y); [|done].
      by rewrite lookup_app_r, Nat.add_comm, Nat.add_sub by lia.
    + apply Hfront. intros injection ings Hm Hi.
      apply (IHk (queue ++ ings) t); [by apply lookup_app_l_Some | done].
Qed.
End graph.

Lemma closed_fully_configured m root :
  closed m → is_Some (m !! root) → fully_configured m root.
Proof.
  intros Hclosed Hroot t Hreach.
  assert (Hsome : is_Some (m !! t)).
  { induction Hreach as [|x y z (injection & ings & Hm & Hi & Hy) _ IH]; [done|].
    apply IH. specialize (Hclosed x injection Hm). unfold node_closed in Hclosed.
    rewrite Hi in Hclosed. by eapply Forall_forall in Hclosed. }
  destruct Hsome as [injection Hm].
  pose proof (Hclosed t injection Hm) as Hc. unfold node_closed in Hc.
  destruct (ingredients injection) as [ings| |] eqn:Hi; try done.
  by exists (injection, ings).
Qed.

Lemma ranked_acyclic rank m root : ranked rank m → acyclic m root.
Proof.
  intros Hranked t _ Hcycle.
  assert (Hlt : ∀ x y, tc (requires1 m) x y → rank y < rank x).
  { induction 1 as [x y Hxy|x y z Hxy _ IH].
    - destruct Hxy as (injection & ings & Hm & Hi & Hy).
      specialize (Hranked x injection Hm). unfold node_ranked in Hranked.
      rewrite Hi in Hranked. by eapply Forall_forall in Hranked.
    - destruct Hxy as (injection & ings & Hm & Hi & Hy).
      specialize (Hranked x injection Hm). unfold node_ranked in Hranked.
      rewrite Hi in Hranked. eapply Forall_forall in Hranked; [|done]. lia. }
  specialize (Hlt t t Hcycle). lia.
Qed.

(** C9, as the code has it.  Without a cycle below the root the loop of
    [_find_path] is left after finitely many turns, and with a plan when
    everything required is configured.  With everything configured and a
    cycle below the root the loop is never left: the queue never empties and
    each turn adds one step to the path. *)
Theorem find_path_termination m root :
  (acyclic m root →
     ∃ fuel, ∀ strict,
       halts (find_path_loop fuel m strict [root] []) ∧
       (fully_configured m root →
          ∃ path, find_path_loop fuel m strict [root] [] = Ok path)) ∧
  (fully_configured m root →
     (∃ c, rtc (requires1 m) root c ∧ tc (requires1 m) c c) →
     ∀ strict,
       (∀ fuel, find_path_loop fuel m strict [root] [] = OutOfFuel) ∧
       (∀ n, ∃ queue path,
          find_path_iter n m strict [root] [] = Some (queue, path) ∧
          queue ≠ [] ∧ length path = n)).
Proof.
  split.
  - intros Hacyc.
    destruct (acc_expands m root (acyclic_acc m root Hacyc)) as [n Hn].
    exists (S n). intros strict.
    pose proof (expands_halts m strict (S n) [root] n [] Hn (Nat.lt_succ_diag_r n)) as Hh.
    split; [done|]. intros Hfull.
    destruct (find_path_loop (S n) m strict [root] []) as [path|e|] eqn:E; [eauto| |done].
    exfalso. eapply (find_path_loop_no_raise m strict (S n) [root] [] e); [|done].
    by intros t ->%list_elem_of_singleton.
  - intros Hfull (c & Hc & Hcc) strict.
    assert (Hiter : ∀ n, ∃ queue path,
              find_path_iter n m strict [root] [] = Some (queue, path) ∧
              queue ≠ [] ∧ length path = n).
    { intros n.
      destruct (find_path_iter_cycle m strict n [root] []) as (q & p & H1 & H2 & H3).
      - by intros t ->%list_elem_of_singleton.
      - exists root, c. split_and!; [apply list_elem_of_here|done|done].
      - by exists q, p. }
    split; [|done].
    intros fuel. apply find_path_loop_iter.
    destruct (Hiter fuel) as (q & p & -> & _). done.
Qed.

Lemma ex_deep_closed : closed ex_deep_injections.
Proof. apply (bool_decide_unpack _). vm_compute. exact I. Qed.

Lemma ex_deep_ranked : ranked class_rank ex_deep_injections.
Proof. apply (bool_decide_unpack _). vm_compute. exact I. Qed.

Lemma ex_loop_closed : closed ex_loop_injections.
Proof. apply (bool_decide_unpack _). vm_compute. exact I. Qed.

Lemma ex_loop_cycle : tc (requires1 ex_loop_injections) (TClass 0) (TClass 0).
Proof.
  apply tc_once. exists (FunctionInjection make_again), [TClass 0].
  split_and!; [reflexivity | reflexivity | apply list_elem_of_here].
Qed.

Lemma find_path_termination_witness :
  (∃ fuel path, find_path_loop fuel ex_deep_injections true [TClass 4] [] = Ok path) ∧
  (∀ fuel, find_path_loop fuel ex_loop_injections true [TClass 0] [] = OutOfFuel).
Proof.
  split.
  - destruct (proj1 (find_path_termination ex_deep_injections (TClass 4)))
      as [fuel H].
    + apply (ranked_acyclic class_rank), ex_deep_ranked.
    + destruct (H true) as [_ [path Hpath]].
      * apply closed_fully_configured; [apply ex_deep_closed | by eexists].
      * by exists fuel, path.
  - apply (proj2 (find_path_termination ex_loop_injections (TClass 0))).
    + apply closed_fully_configured; [apply ex_loop_closed | by eexists].
    + exists (TClass 0). split; [done | apply ex_loop_cycle].
Defined.

Lemma ex_loop_iter n : ∀ path, ∃ path',
  find_path_iter n ex_loop_injections true [TClass 0] path = Some ([TClass 0], path').
Proof.
  induction n as [|n IH]; intros path; [by eexists|].
  apply (IH (path ++ [(1, Some (FunctionInjection make_again))])).
Qed.

(** A token bound to a function of itself requires itself, and the queue of
    the planner holds one token at every turn. *)
Lemma find_path_termination_counterexample :
  tc (requires1 ex_loop_injections) (TClass 0) (TClass 0) ∧
  ¬ queue_unbounded ex_loop_injections true (TClass 0).
Proof.
  split; [apply ex_loop_cycle|].
  intros Hgrow. destruct (Hgrow 1) as (n & queue & path & Hiter & Hlen).
  destruct (ex_loop_iter n []) as [path' Hn].
  rewrite Hn in Hiter. injection Hiter as <- <-. simpl in Hlen. lia.
Qed.

(** ** Strict delivery *)

Lemma ingredients_raise injection e :
  ingredients injection = Raise e → e = AttributeError ∨ e = TypeError.
Proof.
  destruct injection as [v|c|f|f|k [ts|]]; simpl; try done.
  - destruct (cls_init c); try done. intros [= <-]. by left.
  - intros [= <-]. by right.
Qed.

Lemma find_path_loop_nonstrict fuel m : ∀ queue path,
  find_path_loop fuel m false queue path ≠ Raise DeliveryError.
Proof.
  induction fuel as [|fuel IH]; intros queue path; [done|].
  destruct queue as [|t queue]; [done|].
  simpl. destruct (m !! t) as [injection|]; [|done].
  destruct (ingredients injection) as [ings|e|] eqn:Hi; [apply IH| |done].
  apply ingredients_raise in Hi as [-> | ->]; done.
Qed.

Lemma has_origin_raise token o e : has_origin token o = Raise e → e = TypeError.
Proof. destruct token as [?|[] ?|?]; simpl; congruence. Qed.

Lemma infer_injection_raise token value w e :
  (infer_injection token value w).1 = Raise e → e = PreparationError ∨ e = TypeError.
Proof.
  unfold infer_injection, infer_plain, bind, of_result, ret, raise.
  destruct value as [i|c|f|f| |v]; [done|..];
    (destruct (has_origin token OriginList) as [[]|e1|] eqn:E1; simpl;
       [done| |intros [= <-]; right; by eapply has_origin_raise|done];
     destruct (has_origin token OriginTuple) as [[]|e2|] eqn:E2; simpl;
       [done| |intros [= <-]; right; by eapply has_origin_raise|done];
     destruct (has_origin token OriginSet) as [[]|e3|] eqn:E3; simpl;
       [done| |intros [= <-]; right; by eapply has_origin_raise|done]);
    repeat case_match; simpl; try done; intros [= <-]; by left.
Qed.

Lemma prepare_not_delivery_error self token value w :
  (prepare self token value w).1 ≠ Raise DeliveryError ∧
  (prepare_injection self token value w).1 ≠ Raise DeliveryError.
Proof.
  assert (Hinj : ∀ v, (prepare_injection self token v w).1 ≠ Raise DeliveryError).
  { intros v. unfold prepare_injection, bind, get_injector, get_dict, put_dict, raise.
    destruct v; try done.
    destruct (injectors w !! self) as [me|]; [|done].
    by destruct (dicts w !! _injections me). }
  split; [|apply Hinj].
  unfold prepare, bind.
  pose proof (infer_injection_world token value w) as Hw.
  destruct (infer_injection token value w) as [[i|e|] w1] eqn:E; simpl in Hw; subst w1.
  - apply Hinj.
  - simpl. intros [= ->].
    pose proof (infer_injection_raise token value w DeliveryError) as Hr.
    rewrite E in Hr. by destruct (Hr eq_refl).
  - done.
Qed.

(** C3, as the code has it.  On an injector that holds no cached strict plan
    for the token and whose bindings all list their ingredients, strict
    delivery raises [DeliveryError] as soon as the token, or anything it
    requires, is unconfigured: the planner is breadth first, so a cycle
    elsewhere does not keep it away.  [DeliveryError] comes from the strict
    planner only. *)
Theorem strict_unconfigured_raises w self me m token u :
  injectors w !! self = Some me →
  dicts w !! _injections me = Some m →
  cache_get (token, true) (_find_path_method me) = None →
  readable m →
  rtc (requires1 m) token u →
  m !! u = None →
  (∃ fuel0, ∀ fuel, fuel0 ≤ fuel →
     deliver fuel self token true w = (Raise DeliveryError, w)) ∧
  (∀ s t v w0, (prepare s t v w0).1 ≠ Raise DeliveryError ∧
               (prepare_injection s t v w0).1 ≠ Raise DeliveryError) ∧
  (∀ fuel m' queue path, find_path_loop fuel m' false queue path ≠ Raise DeliveryError).
Proof.
  intros Hme Hd Hc Hread Hreach Hu.
  split; [|split; [intros; apply prepare_not_delivery_error
                  |intros; apply find_path_loop_nonstrict]].
  apply rtc_nsteps in Hreach as [n Hn].
  destruct (find_path_reaches_unconfigured m u Hread Hu n 0 [token] token [] eq_refl Hn)
    as [fuel0 Hfuel0].
  exists fuel0. intros fuel Hle.
  pose proof (find_path_loop_more _ _ _ _ _ _ Hfuel0 I fuel Hle) as Hloop.
  unfold deliver, find_path_method, _find_path, bind, get_injector, get_dict, of_result.
  by rewrite Hme, Hc, Hme, Hd, Hloop.
Qed.

Lemma strict_unconfigured_raises_witness :
  ∃ fuel0, ∀ fuel, fuel0 ≤ fuel →
    deliver fuel 0 (TClass 2) true ex_missing_world = (Raise DeliveryError, ex_missing_world).
Proof.
  apply (strict_unconfigured_raises ex_missing_world 0
           {| _injections := 0; _find_path_method := [] |}
           {[ TClass 2 := ClassInjection MyService ]} (TClass 2) (TClass 1)).
  - reflexivity.
  - reflexivity.
  - reflexivity.
  - apply (bool_decide_unpack _). vm_compute. exact I.
  - apply rtc_once. exists (ClassInjection MyService), [TClass 1].
    split_and!; [reflexivity | reflexivity | apply list_elem_of_here].
  - reflexivity.
Defined.

(** After a first strict delivery the token of [MyService] is bound again,
    to a function of an unconfigured gateway; the next strict delivery
    follows the cached plan and returns a service. *)
Lemma strict_unconfigured_raises_counterexample :
  ∃ m, dicts ex_stale_world !! 0 = Some m ∧
       requires1 m (TClass 2) (TClass 9) ∧
       m !! TClass 9 = None ∧
       (deliver 9 0 (TClass 2) true ex_stale_world).1 = Ok (VRef 3).
Proof.
  eexists. split; [reflexivity|]. split; [|split; [reflexivity|reflexivity]].
  exists (FunctionInjection create_from_gateway), [TClass 9].
  split_and!; [reflexivity | reflexivity | apply list_elem_of_here].
Qed.

(** ** Scopes *)

Lemma same_view_refl self w : same_view self w w.
Proof. by repeat split. Qed.

Lemma same_view_trans self w1 w2 w3 :
  same_view self w1 w2 → same_view self w2 w3 → same_view self w1 w3.
Proof.
  intros (Hh & Hi & Hd) (Hh' & Hi' & Hd'). split_and!; [congruence|congruence|].
  intros me Hme. rewrite (Hd me Hme). apply Hd'. congruence.
Qed.

(** The cached planner reads nothing but the view of its injector. *)
Lemma find_path_method_view fuel self token strict w w' :
  same_view self w w' →
  (find_path_method fuel self token strict w).1
    = (find_path_method fuel self token strict w').1 ∧
  same_view self (find_path_method fuel self token strict w).2
                 (find_path_method fuel self token strict w').2.
Proof.
  intros Hsv. pose proof Hsv as (Hh & Hi & Hd).
  unfold find_path_method, bind, get_injector. rewrite <- Hi.
  destruct (injectors w !! self) as [me|] eqn:Hme; [|by split].
  assert (Hput : ∀ c, same_view self
            (set_injectors (<[self := {| _injections := _injections me;
                                         _find_path_method := c |}]> (injectors w)) w)
            (set_injectors (<[self := {| _injections := _injections me;
                                         _find_path_method := c |}]> (injectors w')) w')).
  { intros c. split_and!; simpl; [done| |].
    - rewrite !list_lookup_insert_eq; [done| |].
      + apply lookup_lt_is_Some. rewrite <- Hi. eauto.
      + apply lookup_lt_is_Some. eauto.
    - intros me'. rewrite list_lookup_insert_eq by (apply lookup_lt_is_Some; eauto).
      intros [= <-]. simpl. by apply Hd. }
  destruct (cache_get (token, strict) (_find_path_method me)) as [path|].
  - unfold put_injector, ret. simpl. split; [done|]. apply Hput.
  - unfold _find_path, bind, get_injector, get_dict, of_result.
    rewrite <- Hi, Hme, <- (Hd me eq_refl).
    destruct (dicts w !! _injections me) as [m|]; [|by split].
    destruct (find_path_loop fuel m strict [token] []) as [path|e|];
      [|by split|by split].
    unfold put_injector, ret. simpl. split; [done|]. apply Hput.
Qed.

(** So does [deliver]: injectors with the same view deliver the same value
    and leave the same view. *)
Lemma deliver_view fuel self token strict w w' :
  same_view self w w' →
  (deliver fuel self token strict w).1 = (deliver fuel self token strict w').1 ∧
  same_view self (deliver fuel self token strict w).2 (deliver fuel self token strict w').2.
Proof.
  intros Hsv.
  destruct (find_path_method_view fuel self token strict w w' Hsv) as [Hr Hv].
  unfold deliver, bind.
  destruct (find_path_method fuel self token strict w) as [r1 w1].
  destruct (find_path_method fuel self token strict w') as [r2 w2].
  simpl in Hr, Hv. subst r2.
  destruct r1 as [path|e|]; [|done|done].
  destruct Hv as (Hh & Hi & Hd).
  unfold on_heap. rewrite <- Hh.
  destruct (run_path (rev path) [] 0 (heap w1)) as [[r|e|] h]; simpl.
  - destruct (last r.1); (split; [done|by split]).
  - by split.
  - by split.
Qed.

(** A registration raises and leaves the world alone, or writes one entry
    into the dictionary of its injector. *)
Lemma register_world self r w :
  exec (register self r) w = w ∨
  ∃ me m i,
    injectors w !! self = Some me ∧ dicts w !! _injections me = Some m ∧
    exec (register self r) w
      = set_dicts (<[_injections me := <[registered_token r := i]> m]> (dicts w)) w.
Proof.
  assert (Hpi : ∀ token v,
    exec (prepare_injection self token v) w = w ∨
    ∃ me m i,
      injectors w !! self = Some me ∧ dicts w !! _injections me = Some m ∧
      exec (prepare_injection self token v) w
        = set_dicts (<[_injections me := <[token := i]> m]> (dicts w)) w).
  { intros token v. unfold exec, prepare_injection, bind, get_injector, get_dict, put_dict, raise.
    destruct v as [i| | | | |]; try by left.
    destruct (injectors w !! self) as [me|] eqn:Hme; [|by left].
    destruct (dicts w !! _injections me) as [m|] eqn:Hm; [|by left].
    right. by exists me, m, i. }
  destruct r as [token value|token injection]; [|apply Hpi].
  pose proof (infer_injection_world token value w) as Hw.
  pose proof (Hpi token) as Hpi'.
  unfold register, registered_token, exec, prepare, bind in *.
  destruct (infer_injection token value w) as [[i|e|] w1]; simpl in Hw; subst w1;
    [|by left|by left].
  apply Hpi'.
Qed.

Lemma register_injectors self r w : injectors (exec (register self r) w) = injectors w.
Proof.
  destruct (register_world self r w) as [->|(me & m & i & _ & _ & ->)]; done.
Qed.

Lemma register_all_injectors self rs : ∀ w,
  injectors (register_all self rs w) = injectors w.
Proof.
  induction rs as [|r rs IH]; intros w; [done|].
  simpl. rewrite IH. apply register_injectors.
Qed.

(** Registering in one injector does not change the view of an injector
    whose [_injections] is another dictionary object. *)
Lemma register_view self other r w me mo :
  injectors w !! self = Some me →
  injectors w !! other = Some mo →
  _injections mo ≠ _injections me →
  same_view self w (exec (register other r) w).
Proof.
  intros Hme Hmo Hne.
  destruct (register_world other r w) as [->|(mo' & m & i & Hmo' & _ & ->)];
    [apply same_view_refl|].
  assert (mo' = mo) as -> by congruence.
  split_and!; [done|done|].
  intros me' Hme'. assert (me' = me) as -> by congruence.
  simpl. by rewrite list_lookup_insert_ne.
Qed.

Lemma register_all_view self other rs me mo : ∀ w,
  injectors w !! self = Some me →
  injectors w !! other = Some mo →
  _injections mo ≠ _injections me →
  same_view self w (register_all other rs w).
Proof.
  induction rs as [|r rs IH]; intros w Hme Hmo Hne; [apply same_view_refl|].
  simpl. eapply same_view_trans; [by eapply register_view|].
  apply IH; [| |done]; by rewrite register_injectors.
Qed.

(** What [create] builds: the new injector refers to a new dictionary with
    the entries of the parent, and starts with an empty cache. *)
Lemma create_world w parent me m :
  injectors w !! parent = Some me →
  dicts w !! _injections me = Some m →
  create parent w =
    (Ok (length (injectors w)),
     set_injectors (injectors w ++ [{| _injections := S (length (dicts w));
                                       _find_path_method := [] |}])
       (set_dicts (dicts w ++ [∅; m]) w)).
Proof.
  intros Hme Hd.
  unfold create, Injector_init, bind, new_dict, new_injector, get_injector, get_dict,
    put_injector, ret.
  cbn [injectors dicts set_injectors set_dicts].
  rewrite lookup_app_l by (by eapply lookup_lt_Some).
  rewrite Hme.
  cbn [injectors dicts set_injectors set_dicts].
  rewrite lookup_app_l by (by eapply lookup_lt_Some).
  rewrite Hd.
  cbn [injectors dicts set_injectors set_dicts].
  rewrite list_lookup_middle by done.
  cbn [injectors dicts set_injectors set_dicts _find_path_method].
  unfold set_injectors, set_dicts. cbn.
  f_equal. f_equal.
  - rewrite <- app_assoc. done.
  - rewrite length_app. simpl.
    replace (length (dicts w) + 1) with (S (length (dicts w))) by lia.
    by rewrite insert_app_r_alt, Nat.sub_diag by lia.
Qed.

Lemma same_view_sym_deliver fuel self token strict w w' :
  same_view self w w' →
  (deliver fuel self token strict w').1 = (deliver fuel self token strict w).1 ∧
  heap (deliver fuel self token strict w').2 = heap (deliver fuel self token strict w).2.
Proof.
  intros Hv. destruct (deliver_view fuel self token strict w w' Hv) as (Hr & Hh & _).
  by split.
Qed.

(** C5.  [create] gives the child a dictionary object of its own, filled
    with the parent's entries as they are at the call.  Whatever is then
    registered in the child, the parent delivers what it would have
    delivered, and the other way round. *)
Theorem create_isolates w parent me m :
  injectors w !! parent = Some me →
  dicts w !! _injections me = Some m →
  ∃ child w1 kid,
    create parent w = (Ok child, w1) ∧
    child ≠ parent ∧
    injectors w1 !! parent = Some me ∧
    dicts w1 !! _injections me = Some m ∧
    injectors w1 !! child = Some kid ∧
    dicts w1 !! _injections kid = Some m ∧
    _injections kid ≠ _injections me ∧
    ∀ rs fuel token strict,
      ((deliver fuel parent token strict (register_all child rs w1)).1
         = (deliver fuel parent token strict w1).1 ∧
       heap (deliver fuel parent token strict (register_all child rs w1)).2
         = heap (deliver fuel parent token strict w1).2) ∧
      ((deliver fuel child token strict (register_all parent rs w1)).1
         = (deliver fuel child token strict w1).1 ∧
       heap (deliver fuel child token strict (register_all parent rs w1)).2
         = heap (deliver fuel child token strict w1).2).
Proof.
  intros Hme Hd.
  pose proof (lookup_lt_Some _ _ _ Hme) as Hlt.
  pose proof (lookup_lt_Some _ _ _ Hd) as Hdlt.
  set (kid := {| _injections := S (length (dicts w)); _find_path_method := [] |}).
  set (w1 := set_injectors (injectors w ++ [kid]) (set_dicts (dicts w ++ [∅; m]) w)).
  exists (length (injectors w)), w1, kid.
  split; [exact (create_world w parent me m Hme Hd)|].
  assert (Hparent : injectors w1 !! parent = Some me)
    by (simpl; by rewrite lookup_app_l).
  assert (Hchild : injectors w1 !! length (injectors w) = Some kid)
    by (simpl; by rewrite list_lookup_middle).
  assert (Hne : _injections kid ≠ _injections me) by (simpl; lia).
  split_and!.
  - lia.
  - done.
  - simpl. by rewrite lookup_app_l.
  - done.
  - simpl. rewrite lookup_app_r by lia.
    by replace (S (length (dicts w)) - length (dicts w)) with 1 by lia.
  - done.
  - intros rs fuel token strict. split.
    + apply same_view_sym_deliver.
      exact (register_all_view parent (length (injectors w)) rs me kid w1
               Hparent Hchild Hne).
    + apply same_view_sym_deliver.
      exact (register_all_view (length (injectors w)) parent rs kid me w1
               Hchild Hparent (not_eq_sym Hne)).
Qed.

(** The test of [create]: the child binds [str] to ['boris'], the parent
    still delivers ['alice'] and the child delivers ['boris']. *)
Lemma create_isolates_witness :
  let w1 := exec (create 0) ex_parent_world in
  let w2 := register_all 1 [Prepare (TClass 7) (SObject (VStr "boris"))] w1 in
  (deliver 2 0 (TClass 7) true w2).1 = Ok (VStr "alice") ∧
  (deliver 2 1 (TClass 7) true w2).1 = Ok (VStr "boris").
Proof.
  intros w1 w2.
  destruct (create_isolates ex_parent_world 0
              {| _injections := 0; _find_path_method := [] |}
              {[ TClass 7 := ValueInjection (VStr "alice") ]} eq_refl eq_refl)
    as (child & w1' & kid & Hc & _ & _ & _ & _ & _ & _ & Hiso).
  assert (Hrun : create 0 ex_parent_world = (Ok 1, w1)) by reflexivity.
  rewrite Hrun in Hc. injection Hc as <- <-.
  split; [|reflexivity].
  destruct (Hiso [Prepare (TClass 7) (SObject (VStr "boris"))] 2 (TClass 7) true)
    as [[Hp _] _].
  fold w2 in Hp. rewrite Hp. reflexivity.
Defined.

(** ** The plan cache *)

Lemma cache_get_remove key key' c :
  key' ≠ key → cache_get key (cache_remove key' c) = cache_get key c.
Proof.
  intros Hne. unfold cache_remove.
  induction c as [|[k p] c IH]; [done|].
  destruct (decide (k = key')) as [->|Hk].
  - rewrite filter_cons_False by (simpl; tauto).
    simpl. by rewrite bool_decide_eq_false_2.
  - rewrite filter_cons_True by done. simpl. by rewrite IH.
Qed.

Lemma cache_rank_remove key key' c :
  key' ≠ key → cache_rank key (cache_remove key' c) ≤ cache_rank key c.
Proof.
  intros Hne. unfold cache_remove.
  induction c as [|[k p] c IH]; [done|].
  destruct (decide (k = key')) as [->|Hk].
  - rewrite filter_cons_False by (simpl; tauto).
    simpl. rewrite bool_decide_eq_false_2 by done. lia.
  - rewrite filter_cons_True by done. simpl. case_bool_decide; lia.
Qed.

Lemma cache_get_rank key c p : cache_get key c = Some p → cache_rank key c < length c.
Proof.
  induction c as [|[k q] c IH]; [done|]. simpl.
  case_bool_decide; [lia|]. intros Hc. apply IH in Hc. lia.
Qed.

Lemma cache_get_take key c n :
  cache_rank key c < n → cache_get key (take n c) = cache_get key c.
Proof.
  revert n. induction c as [|[k q] c IH]; intros n Hn; [by rewrite take_nil|].
  destruct n as [|n]; [lia|]. simpl in *.
  case_bool_decide; [done|]. apply IH. lia.
Qed.

Lemma cache_rank_take key c n :
  cache_rank key c < n → cache_rank key (take n c) = cache_rank key c.
Proof.
  revert n. induction c as [|[k q] c IH]; intros n Hn; [by rewrite take_nil|].
  destruct n as [|n]; [lia|]. simpl in *.
  case_bool_decide; [done|]. f_equal. apply IH. lia.
Qed.

(** A hit on another key moves the plan of [key] back by one place at most. *)
Lemma cache_hit_other key key' p' c p :
  key' ≠ key → cache_get key c = Some p →
  cache_get key (cache_hit key' p' c) = Some p ∧
  cache_rank key (cache_hit key' p' c) ≤ S (cache_rank key c).
Proof.
  intros Hne Hget. unfold cache_hit. simpl.
  rewrite bool_decide_eq_false_2 by done.
  rewrite cache_get_remove by done. split; [done|].
  pose proof (cache_rank_remove key key' c Hne). lia.
Qed.

(** So does a miss on another key, and the plan of [key] is not the entry
    dropped as long as fewer than [lru_maxsize - 1] entries are in front of
    it. *)
Lemma cache_miss_other key key' p' c p :
  key' ≠ key → cache_get key c = Some p →
  S (cache_rank key c) < lru_maxsize →
  cache_get key (cache_miss key' p' c) = Some p ∧
  cache_rank key (cache_miss key' p' c) = S (cache_rank key c).
Proof.
  intros Hne Hget Hrank. unfold cache_miss. simpl.
  rewrite bool_decide_eq_false_2 by done.
  case_bool_decide as Hlen; [done|].
  assert (cache_rank key c < length c - 1) by lia.
  by rewrite cache_get_take, cache_rank_take.
Qed.

(** What the cached planner does: it fails and leaves the world alone, or
    it answers with a plan and replaces the cache of its injector after a hit
    or a miss. *)
Lemma find_path_method_cases fuel s t b w :
  ((find_path_method fuel s t b w).2 = w ∧
   ∀ p, (find_path_method fuel s t b w).1 ≠ Ok p) ∨
  ∃ ms p c',
    injectors w !! s = Some ms ∧
    (find_path_method fuel s t b w).1 = Ok p ∧
    (find_path_method fuel s t b w).2
      = set_injectors (<[s := {| _injections := _injections ms;
                                 _find_path_method := c' |}]> (injectors w)) w ∧
    ((cache_get (t, b) (_find_path_method ms) = Some p ∧
      c' = cache_hit (t, b) p (_find_path_method ms)) ∨
     (cache_get (t, b) (_find_path_method ms) = None ∧
      c' = cache_miss (t, b) p (_find_path_method ms))).
Proof.
  unfold find_path_method, bind, get_injector.
  destruct (injectors w !! s) as [ms|] eqn:Hms; [|by left].
  destruct (cache_get (t, b) (_find_path_method ms)) as [p|] eqn:Hc.
  - right. exists ms, p, (cache_hit (t, b) p (_find_path_method ms)).
    split_and!; [done|done|done|by left].
  - unfold _find_path, bind, get_injector, get_dict, of_result. rewrite Hms.
    destruct (dicts w !! _injections ms) as [m|]; [|by left].
    destruct (find_path_loop fuel m b [t] []) as [p|e|]; [|by left|by left].
    right. exists ms, p, (cache_miss (t, b) p (_find_path_method ms)).
    split_and!; [done|done|done|by right].
Qed.

Lemma find_path_method_hit fuel self token strict w me path :
  injectors w !! self = Some me →
  cache_get (token, strict) (_find_path_method me) = Some path →
  (find_path_method fuel self token strict w).1 = Ok path.
Proof.
  intros Hme Hc. unfold find_path_method, bind, get_injector. by rewrite Hme, Hc.
Qed.

Lemma deliver_injectors fuel s t b w :
  injectors (deliver fuel s t b w).2 = injectors (find_path_method fuel s t b w).2.
Proof.
  unfold deliver, bind.
  destruct (find_path_method fuel s t b w) as [[p|e|] w1]; [|done|done].
  unfold on_heap.
  destruct (run_path (rev p) [] 0 (heap w1)) as [[r|e|] h]; [|done|done].
  simpl. by destruct (last r.1).
Qed.

Lemma create_injectors_lookup s w self :
  self < length (injectors w) →
  injectors (exec (create s) w) !! self = injectors w !! self.
Proof.
  intros Hlt.
  unfold exec, create, Injector_init, bind, new_dict, new_injector, get_injector,
    get_dict, put_injector, ret.
  cbn [injectors dicts set_injectors set_dicts].
  repeat case_match; simplify_eq; cbn [snd injectors dicts set_injectors set_dicts];
    rewrite ?list_lookup_insert_ne by lia; by rewrite lookup_app_l.
Qed.

Lemma other_deliveries_cons self key c cs :
  other_deliveries self key (c :: cs)
    = (if other_delivery self key c then 1 else 0) + other_deliveries self key cs.
Proof.
  unfold other_deliveries.
  destruct (other_delivery self key c) eqn:E.
  - by rewrite filter_cons_True.
  - rewrite filter_cons_False; [done|]. by rewrite E.
Qed.

(** One call keeps the plan cached, and only a delivery of another pair by
    the same injector uses up room. *)
Lemma run_call_keeps path key self c cs w :
  plan_cached path key self (other_deliveries self key (c :: cs)) w →
  plan_cached path key self (other_deliveries self key cs) (run_call c w).
Proof.
  rewrite other_deliveries_cons.
  intros (me & Hme & Hget & Hrank).
  assert (Hweak : plan_cached path key self (other_deliveries self key cs) w).
  { exists me. split_and!; [done|done|lia]. }
  destruct c as [s r|fuel s t b|s]; simpl.
  - destruct Hweak as (me' & ? & ? & ?). exists me'.
    by rewrite register_injectors.
  - unfold exec. 
    assert (Hinj : injectors (deliver fuel s t b w).2
                   = injectors (find_path_method fuel s t b w).2)
      by apply deliver_injectors.
    unfold plan_cached. rewrite Hinj.
    destruct (find_path_method_cases fuel s t b w)
      as [[-> _]|(ms & p & c' & Hms & _ & -> & Hc')]; [exact Hweak|].
    cbn [injectors set_injectors].
    destruct (decide (s = self)) as [->|Hs].
    2:{ rewrite list_lookup_insert_ne by done. exact Hweak. }
    assert (ms = me) as -> by congruence.
    rewrite list_lookup_insert_eq by (by eapply lookup_lt_Some).
    eexists. split; [done|]. cbn [_find_path_method].
    destruct (decide ((t, b) = key)) as [<-|Hk].
    + destruct Hc' as [[Hp ->]|[Hp _]]; [|congruence].
      assert (p = path) as -> by congruence.
      unfold cache_hit. simpl. rewrite bool_decide_eq_true_2 by done.
      split; [done|].
      simpl in Hrank. destruct (bool_decide _ && _); lia.
    + simpl in Hrank. rewrite bool_decide_eq_true_2 in Hrank by done.
      rewrite bool_decide_eq_false_2 in Hrank by done. simpl in Hrank.
      destruct Hc' as [[Hp ->]|[Hp ->]].
      * destruct (cache_hit_other key (t, b) p _ path Hk Hget) as [H1 H2].
        split; [done|lia].
      * destruct (cache_miss_other key (t, b) p _ path Hk Hget) as [H1 H2]; [lia|].
        split; [done|lia].
  - destruct Hweak as (me' & Hme' & ? & ?). exists me'.
    rewrite create_injectors_lookup by (by eapply lookup_lt_Some). done.
Qed.

Lemma run_calls_keep path key self cs : ∀ w,
  plan_cached path key self (other_deliveries self key cs) w →
  plan_cached path key self 0 (run_calls cs w).
Proof.
  induction cs as [|c cs IH]; intros w H; [done|].
  simpl. apply IH. by apply run_call_keeps.
Qed.

Lemma cache_get_take_none key c n :
  cache_get key c = None → cache_get key (take n c) = None.
Proof.
  revert n. induction c as [|[k q] c IH]; intros n Hc; [by rewrite take_nil|].
  destruct n as [|n]; [done|]. simpl in *.
  case_bool_decide; [done|]. by apply IH.
Qed.

(** C4, as the code has it.  The plan a resolution of [(token, strict)]
    computed or found stays the answer of the cached planner through any run
    of registrations, creations and deliveries, on this or other injectors,
    as long as this injector delivers other pairs fewer than [lru_maxsize]
    times in between; and it is not an answer for the same token with the
    other strictness, which is planned on its own. *)
Theorem plan_memoized w0 self token strict fuel0 path :
  (find_path_method fuel0 self token strict w0).1 = Ok path →
  (∀ calls fuel,
     other_deliveries self (token, strict) calls < lru_maxsize →
     (find_path_method fuel self token strict
        (run_calls calls (deliver fuel0 self token strict w0).2)).1 = Ok path) ∧
  (∀ me0, injectors w0 !! self = Some me0 →
     cache_get (token, negb strict) (_find_path_method me0) = None →
     ∀ fuel,
       (find_path_method fuel self token (negb strict)
          (deliver fuel0 self token strict w0).2).1
       = (_find_path fuel self token (negb strict)
            (deliver fuel0 self token strict w0).2).1).
Proof.
  intros Hfirst.
  pose proof (deliver_injectors fuel0 self token strict w0) as Hinj.
  destruct (find_path_method_cases fuel0 self token strict w0)
    as [[_ Hno]|(ms & p & c' & Hms & Hp & Hw & Hc')]; [by apply Hno in Hfirst|].
  assert (p = path) as -> by congruence.
  rewrite Hw in Hinj. cbn [injectors set_injectors] in Hinj.
  assert (Hself : injectors (deliver fuel0 self token strict w0).2 !! self
                  = Some {| _injections := _injections ms; _find_path_method := c' |}).
  { rewrite Hinj. apply list_lookup_insert_eq. by eapply lookup_lt_Some. }
  split.
  - intros calls fuel Hcalls.
    assert (Hcached : plan_cached path (token, strict) self
                        (other_deliveries self (token, strict) calls)
                        (deliver fuel0 self token strict w0).2).
    { eexists. split; [exact Hself|]. cbn [_find_path_method].
      destruct Hc' as [[_ ->]|[_ ->]]; unfold cache_hit, cache_miss; simpl;
        rewrite bool_decide_eq_true_2 by done; (split; [done|lia]). }
    apply run_calls_keep in Hcached as (me & Hme & Hget & _).
    by eapply find_path_method_hit.
  - intros me0 Hme0 Hother fuel.
    assert (ms = me0) as -> by congruence.
    assert (Hnone : cache_get (token, negb strict) c' = None).
    { assert (Hne : (token, strict) ≠ (token, negb strict))
        by (intros [= ?]; by destruct strict).
      destruct Hc' as [[_ ->]|[_ ->]]; unfold cache_hit, cache_miss; simpl;
        rewrite bool_decide_eq_false_2 by done.
      - by rewrite cache_get_remove.
      - case_bool_decide; [done|]. by apply cache_get_take_none. }
    unfold find_path_method at 1. unfold bind, get_injector at 1.
    rewrite Hself. cbn [_find_path_method]. rewrite Hnone.
    by destruct (_find_path fuel self token (negb strict) _) as [[q|e|] w1].
Qed.

(** After a first delivery of [str] the parent binds it to ['boris']; the
    planner still answers with the plan that delivers ['alice']. *)
Lemma plan_memoized_witness :
  (find_path_method 2 0 (TClass 7) true
     (run_calls [CallRegister 0 (Prepare (TClass 7) (SObject (VStr "boris")))]
        (deliver 2 0 (TClass 7) true ex_parent_world).2)).1
  = Ok [(0, Some (ValueInjection (VStr "alice")))].
Proof.
  apply (proj1 (plan_memoized ex_parent_world 0 (TClass 7) true 2
                  [(0, Some (ValueInjection (VStr "alice")))] eq_refl)).
  vm_compute. lia.
Defined.

(** With 128 other pairs delivered in between, the plan of [str] has left
    the cache: after the token is bound again the planner answers with a
    new plan, which delivers ['boris']. *)
Lemma plan_memoized_counterexample :
  (find_path_method 2 0 (TClass 7) true ex_crowded_world).1
    = Ok [(0, Some (ValueInjection (VStr "alice")))] ∧
  (find_path_method 2 0 (TClass 7) true
     (run_calls ex_crowding_calls (deliver 2 0 (TClass 7) true ex_crowded_world).2)).1
    = Ok [(0, Some (ValueInjection (VStr "boris")))] ∧
  (deliver 2 0 (TClass 7) true
     (run_calls ex_crowding_calls (deliver 2 0 (TClass 7) true ex_crowded_world).2)).1
    = Ok (VStr "boris").
Proof. split_and!; vm_compute; reflexivity. Qed.

(** ** Sequences *)

Lemma apply_ops_length ops : ∀ h, length h ≤ length (apply_ops h ops).
Proof.
  unfold apply_ops. induction ops as [|op ops IH]; intros h; [done|].
  simpl. etrans; [|apply IH].
  destruct op; simpl; [rewrite length_app; simpl; lia | by rewrite length_insert].
Qed.

Lemma deliver_injection_heap injection args h :
  length h ≤ length (deliver_injection injection args h).2.
Proof.
  destruct injection as [v|c|f|f|k ts]; simpl; unfold call; try done.
  - destruct (cls_new c args h). apply apply_ops_length.
  - destruct (fn_call f [] h). apply apply_ops_length.
  - destruct (fn_call f args h). apply apply_ops_length.
  - destruct k as [| | |construct]; simpl.
    + rewrite length_app. simpl. lia.
    + destruct args; simpl; [done|]. rewrite length_app. simpl. lia.
    + destruct (forallb (hashable h) args); simpl; [|done].
      rewrite length_app. simpl. lia.
    + unfold call. destruct (construct args h). apply apply_ops_length.
Qed.




(** The world a delivery leaves when the expansion is finite and fully
    configured: the heap of [deliver_rows], and the plan in the cache. *)
Lemma deliver_world w self me m token strict rows fuel :
  injectors w !! self = Some me →
  planned_by me w token strict m →
  expansion m [token] rows →
  length (concat rows) < fuel →
  ∃ c',
    cache_get (token, strict) c' = Some (plan_of rows) ∧
    deliver fuel self token strict w =
      (root_value (deliver_rows rows (heap w)).1,
       set_heap (deliver_rows rows (heap w)).2
         (set_injectors
            (<[self := {| _injections := _injections me; _find_path_method := c' |}]>
               (injectors w)) w)).
Proof.
  intros Hme Hby Hexp Hfuel.
  pose proof (find_path_plan _ strict _ _ _ Hexp Hfuel) as Hplan.
  destruct (find_path_method_plan _ _ _ _ _ _ _ _ Hme Hby Hplan) as (c' & Hm & Hc).
  exists c'. split; [done|].
  unfold deliver, bind. rewrite Hm.
  unfold on_heap. cbn [heap set_injectors].
  pose proof (run_path_rows _ _ _ Hexp (heap w)) as Hrun.
  destruct (deliver_rows rows (heap w)) as [[values|e|] h'].
  - destruct Hrun as [Hlen [I0 ->]]. cbn [fst snd].
    destruct values as [|v [|? ?]]; [done| |done].
    simpl. by rewrite last_snoc.
  - by rewrite Hrun.
  - by rewrite Hrun.
Qed.


(** *** What [set] keeps *)













(** ** Agreement with the recursion over the dependency tree *)

Lemma merge_rows_expansion m q1 rows1 :
  expansion m q1 rows1 → ∀ q2 rows2,
  expansion m q2 rows2 → expansion m (q1 ++ q2) (merge_rows rows1 rows2).
Proof.
  induction 1 as [|q1 row1 rows1 Hne1 Hrow1 Hexp1 IH]; intros q2 rows2 H2; [done|].
  destruct H2 as [|q2 row2 rows2 Hne2 Hrow2 H2].
  - rewrite app_nil_r. simpl. by apply expansion_level.
  - simpl. apply expansion_level.
    + by destruct q1.
    + by apply Forall2_app.
    + rewrite fmap_app, concat_app. by apply IH.
Qed.









(** * Further properties of the planner *)

(** The loop of [_find_path] keeps the balance between the steps written,
    the tokens waiting and the ingredients counted, and writes only steps of
    bound tokens. *)
Lemma find_path_loop_balance m strict fuel : ∀ queue path result,
  find_path_loop fuel m strict queue path = Ok result →
  length result + total_argn path = length path + length queue + total_argn result ∧
  (Forall (step_from m) path → Forall (step_from m) result) ∧
  ∃ more, result = path ++ more.
Proof.
  induction fuel as [|fuel IH]; intros queue path result Hloop; [done|].
  destruct queue as [|t queue].
  { simpl in Hloop. injection Hloop as <-. split_and!; [simpl; lia|done|].
    exists []. by rewrite app_nil_r. }
  simpl in Hloop.
  destruct (m !! t) as [injection|] eqn:Hm; [|by destruct strict].
  destruct (ingredients injection) as [ings|e|] eqn:Hi; [|done|done].
  apply IH in Hloop as (Hbal & Hsteps & more & Hmore).
  unfold total_argn in *.
  rewrite sum_list_with_app, !length_app in Hbal. simpl in *.
  split_and!.
  - lia.
  - intros Hpath. apply Hsteps. apply Forall_app. split; [done|].
    apply Forall_singleton. by exists t, injection, ings.
  - exists ([(length ings, Some injection)] ++ more). by rewrite app_assoc.
Qed.

(** X1.  A plan returned by [_find_path] starts with the step of the root's
    injection, holds only steps of bound tokens (never the placeholder
    [(0, None)]), and has exactly one step more than the ingredient counts
    add up to: every step but the first is the ingredient of one step. *)
Theorem find_path_plan_shape m strict fuel token path :
  find_path_loop fuel m strict [token] [] = Ok path →
  length path = S (total_argn path) ∧
  Forall (step_from m) path ∧
  ∃ injection ings rest,
    m !! token = Some injection ∧ ingredients injection = Ok ings ∧
    path = (length ings, Some injection) :: rest.
Proof.
  intros Hloop.
  destruct (find_path_loop_balance m strict fuel [token] [] path Hloop)
    as (Hbal & Hsteps & _).
  split_and!.
  - unfold total_argn in *. simpl in Hbal. lia.
  - by apply Hsteps.
  - destruct fuel as [|fuel]; [done|]. simpl in Hloop.
    destruct (m !! token) as [injection|] eqn:Hm; [|by destruct strict].
    destruct (ingredients injection) as [ings|e|] eqn:Hi; [|done|done].
    apply find_path_loop_balance in Hloop as (_ & _ & more & ->).
    by exists injection, ings, more.
Qed.

Lemma find_path_plan_shape_witness :
  ∃ path, find_path_loop 7 ex_deep_injections true [TClass 4] [] = Ok path ∧
          length path = S (total_argn path).
Proof.
  eexists. split; [reflexivity|].
  apply (find_path_plan_shape ex_deep_injections true 7 (TClass 4)). reflexivity.
Defined.

(** X2.  The flag [strict] matters for unconfigured tokens only: the strict
    and the non-strict planner return the same plans. *)
Theorem find_path_strict_irrelevant m fuel : ∀ queue path0 path,
  find_path_loop fuel m true queue path0 = Ok path ↔
  find_path_loop fuel m false queue path0 = Ok path.
Proof.
  induction fuel as [|fuel IH]; intros queue path0 path; [done|].
  destruct queue as [|t queue]; [done|].
  simpl. destruct (m !! t) as [injection|]; [|done].
  destruct (ingredients injection) as [ings|e|]; [apply IH|done|done].
Qed.

(** X3.  Binding a token the root does not require leaves the plan of the
    root as it is. *)
Theorem find_path_unrelated_binding m root t injection strict fuel :
  ¬ rtc (requires1 m) root t →
  find_path_loop fuel (<[t := injection]> m) strict [root] []
    = find_path_loop fuel m strict [root] [].
Proof.
  intros Hnot.
  assert (Hgen : ∀ fuel queue path,
            (∀ x, x ∈ queue → rtc (requires1 m) root x) →
            find_path_loop fuel (<[t := injection]> m) strict queue path
              = find_path_loop fuel m strict queue path).
  { clear fuel. induction fuel as [|fuel IH]; intros queue path Hq; [done|].
    destruct queue as [|x queue]; [done|].
    pose proof (Hq x (list_elem_of_here _ _)) as Hx.
    assert (Hne : t ≠ x) by (intros ->; by apply Hnot).
    simpl. rewrite lookup_insert_ne by done.
    destruct (m !! x) as [i|] eqn:Hm; [|by destruct strict].
    destruct (ingredients i) as [ings|e|] eqn:Hi; [|done|done].
    apply IH. intros y [Hy|Hy]%elem_of_app.
    - apply Hq. by apply list_elem_of_further.
    - eapply rtc_r; [exact Hx|]. by exists i, ings. }
  apply Hgen. by intros x ->%list_elem_of_singleton.
Qed.

Lemma find_path_unrelated_binding_witness :
  find_path_loop 3 (<[TClass 4 := ValueInjection VNone]> ex_deep_injections) true
    [TClass 1] []
  = find_path_loop 3 ex_deep_injections true [TClass 1] [].
Proof.
  apply find_path_unrelated_binding.
  intros H. apply rtc_inv in H as [H|(y & (i & ings & Hm & Hi & Hy) & _)]; [done|].
  vm_compute in Hm. injection Hm as <-.
  simpl in Hi. injection Hi as <-.
  by apply not_elem_of_nil in Hy.
Defined.

(** The planner is fair in both modes: a token of the queue that requires
    an unconfigured token makes it leave with the error of its mode. *)
Lemma find_path_fair m strict u :
  readable m → m !! u = None →
  ∀ n k queue t path,
    queue !! k = Some t → nsteps (requires1 m) n t u →
    ∃ fuel, find_path_loop fuel m strict queue path
            = Raise (if strict then DeliveryError else AttributeError).
Proof.
  intros Hread Hu.
  assert (Hfront : ∀ x queue path,
    (∀ injection ings, m !! x = Some injection → ingredients injection = Ok ings →
       ∃ fuel, find_path_loop fuel m strict (queue ++ ings)
                 (path ++ [(length ings, Some injection)])
               = Raise (if strict then DeliveryError else AttributeError)) →
    ∃ fuel, find_path_loop fuel m strict (x :: queue) path
            = Raise (if strict then DeliveryError else AttributeError)).
  { intros x queue path Hnext.
    destruct (m !! x) as [injection|] eqn:Hm.
    - destruct (Hread _ _ Hm) as [ings Hi].
      destruct (Hnext _ _ eq_refl Hi) as [fuel Hfuel].
      exists (S fuel). simpl. by rewrite Hm, Hi.
    - exists 1. simpl. rewrite Hm. by destruct strict. }
  induction n as [|n IHn].
  - induction k as [|k IHk]; intros [|x queue] t path Hk Hn; try done; simpl in Hk.
    + injection Hk as ->. inversion Hn; subst.
      exists 1. simpl. rewrite Hu. by destruct strict.
    + apply Hfront. intros injection ings Hm Hi.
      apply (IHk (queue ++ ings) t); [by apply lookup_app_l_Some | done].
  - induction k as [|k IHk]; intros [|x queue] t path Hk Hn; try done; simpl in Hk.
    + injection Hk as ->. inversion Hn as [|? ? y ? Hxy Hyu]; subst.
      apply Hfront. intros injection ings Hm Hi.
      pose proof (requires1_bound _ _ _ _ _ Hxy Hm Hi) as Hy.
      apply list_elem_of_lookup in Hy as [j Hj].
      apply (IHn (length queue + j) (queue ++ ings) y); [|done].
      by rewrite lookup_app_r, Nat.add_comm, Nat.add_sub by lia.
    + apply Hfront. intros injection ings Hm Hi.
      apply (IHk (queue ++ ings) t); [by apply lookup_app_l_Some | done].
Qed.

(** X4.  Outside strict mode an unconfigured token is not tolerated deeper
    in the tree either: when the token requires, directly or not, a token
    without injection, and no non-strict plan is cached for it, [deliver]
    leaves with [AttributeError] and the world is as before. *)
Theorem deliver_nonstrict_requires_unconfigured w self me m token u :
  injectors w !! self = Some me →
  dicts w !! _injections me = Some m →
  cache_get (token, false) (_find_path_method me) = None →
  readable m →
  rtc (requires1 m) token u →
  m !! u = None →
  ∃ fuel0, ∀ fuel, fuel0 ≤ fuel →
    deliver fuel self token false w = (Raise AttributeError, w).
Proof.
  intros Hme Hd Hc Hread Hreach Hu.
  apply rtc_nsteps in Hreach as [n Hn].
  destruct (find_path_fair m false u Hread Hu n 0 [token] token [] eq_refl Hn)
    as [fuel0 Hfuel0].
  exists fuel0. intros fuel Hle.
  pose proof (find_path_loop_more _ _ _ _ _ _ Hfuel0 I fuel Hle) as Hloop.
  unfold deliver, find_path_method, _find_path, bind, get_injector, get_dict, of_result.
  by rewrite Hme, Hc, Hme, Hd, Hloop.
Qed.

Lemma deliver_nonstrict_requires_unconfigured_witness :
  ∃ fuel0, ∀ fuel, fuel0 ≤ fuel →
    deliver fuel 0 (TClass 2) false ex_missing_world
      = (Raise AttributeError, ex_missing_world).
Proof.
  apply (deliver_nonstrict_requires_unconfigured ex_missing_world 0
           {| _injections := 0; _find_path_method := [] |}
           {[ TClass 2 := ClassInjection MyService ]} (TClass 2) (TClass 1)).
  - reflexivity.
  - reflexivity.
  - reflexivity.
  - apply (bool_decide_unpack _). vm_compute. exact I.
  - apply rtc_once. exists (ClassInjection MyService), [TClass 1].
    split_and!; [reflexivity | reflexivity | apply list_elem_of_here].
  - reflexivity.
Defined.

(** Splitting the expansion of two queues put end to end. *)
Lemma expansion_nil_inv m rows : expansion m [] rows → rows = [].
Proof. by inversion 1. Qed.

Lemma expansion_split m queue rows :
  expansion m queue rows → ∀ a b, queue = a ++ b →
  ∃ rows_a rows_b, expansion m a rows_a ∧ expansion m b rows_b.
Proof.
  induction 1 as [|queue row rows Hne Hrow _ IH]; intros a b Hq.
  - symmetry in Hq. apply app_eq_nil in Hq as [-> ->].
    exists [], []. split; constructor.
  - subst queue. apply Forall2_app_inv_l in Hrow as (ra & rb & Ha & Hb & ->).
    destruct (IH (concat (ra.*2)) (concat (rb.*2))) as (rows_a & rows_b & Hea & Heb).
    { by rewrite fmap_app, concat_app. }
    exists (if decide (a = []) then [] else ra :: rows_a),
           (if decide (b = []) then [] else rb :: rows_b).
    split; case_decide; subst; try constructor; done.
Qed.

(** X5.  [_find_path] returns a plan only for a token whose expansion is
    finite and fully configured, and the plan is then the level by level
    listing of that expansion; with [find_path_plan] this is an equivalence. *)
Theorem find_path_complete m strict fuel : ∀ queue path0 path,
  find_path_loop fuel m strict queue path0 = Ok path →
  ∃ rows, expansion m queue rows ∧ path = path0 ++ plan_of rows.
Proof.
  induction fuel as [|fuel IH]; intros queue path0 path Hloop; [done|].
  destruct queue as [|t queue].
  { simpl in Hloop. injection Hloop as <-. exists []. split; [constructor|].
    by rewrite app_nil_r. }
  pose proof Hloop as Hloop0.
  simpl in Hloop.
  destruct (m !! t) as [injection|] eqn:Hm; [|by destruct strict].
  destruct (ingredients injection) as [ings|e|] eqn:Hi; [|done|done].
  apply IH in Hloop as (rows' & Hexp' & _).
  destruct (expansion_split _ _ _ Hexp' queue ings eq_refl)
    as (rows_q & rows_i & Hq & Hings).
  assert (Hexp_t : expansion m [t] ([(injection, ings)] :: rows_i)).
  { apply expansion_level; [done| |].
    - apply Forall2_cons_2; [by split|constructor].
    - simpl. by rewrite app_nil_r. }
  pose proof (merge_rows_expansion m [t] _ Hexp_t queue rows_q Hq) as Hexp.
  exists (merge_rows ([(injection, ings)] :: rows_i) rows_q). split; [exact Hexp|].
  pose proof (find_path_expansion m strict _ _ Hexp path0 0) as Hplan.
  eapply find_path_loop_agree; eauto.
Qed.

Lemma find_path_complete_witness :
  ∃ path rows,
    find_path_loop 7 ex_deep_injections true [TClass 4] [] = Ok path ∧
    expansion ex_deep_injections [TClass 4] rows ∧ path = [] ++ plan_of rows.
Proof.
  assert (H : ∃ path, find_path_loop 7 ex_deep_injections true [TClass 4] [] = Ok path)
    by (eexists; reflexivity).
  destruct H as [path H].
  destruct (find_path_complete ex_deep_injections true 7 [TClass 4] [] path H)
    as (rows & Hexp & Hpath).
  by exists path, rows.
Defined.

(** * Further properties of delivery *)

(** X6.  When the planner fails, [deliver] fails with the same error and the
    world is as before: nothing is cached and nothing allocated, so the same
    delivery can be tried again once the registry is completed. *)
Theorem deliver_planning_failure fuel self token strict w e :
  (find_path_method fuel self token strict w).1 = Raise e →
  deliver fuel self token strict w = (Raise e, w).
Proof.
  intros Hfail.
  destruct (find_path_method_cases fuel self token strict w)
    as [[Hw _]|(ms & p & c' & _ & Hp & _)]; [|congruence].
  unfold deliver, bind.
  destruct (find_path_method fuel self token strict w) as [r w1].
  simpl in *. by subst.
Qed.

Lemma deliver_planning_failure_witness :
  deliver 5 0 (TClass 2) true ex_missing_world = (Raise DeliveryError, ex_missing_world).
Proof. by apply deliver_planning_failure. Defined.

Lemma call_step_heap d args h : length h ≤ length (call_step d args h).2.
Proof. destruct d as [i|]; [apply deliver_injection_heap|done]. Qed.

Lemma run_path_heap steps : ∀ instances index h,
  length h ≤ length (run_path steps instances index h).2.
Proof.
  induction steps as [|[argn d] steps IH]; intros instances index h; [done|].
  simpl.
  pose proof (call_step_heap d (rev (take argn (drop index instances))) h) as Hc.
  destruct (call_step d _ h) as [[v|e|] h1]; simpl in *; [|done|done].
  etrans; [exact Hc|apply IH].
Qed.

(** The cached planner only replaces the cache of its own injector. *)
Lemma find_path_method_frame fuel self token strict w :
  dicts (find_path_method fuel self token strict w).2 = dicts w ∧
  classes (find_path_method fuel self token strict w).2 = classes w ∧
  heap (find_path_method fuel self token strict w).2 = heap w ∧
  length (injectors (find_path_method fuel self token strict w).2)
    = length (injectors w) ∧
  (∀ other, other ≠ self →
     injectors (find_path_method fuel self token strict w).2 !! other
       = injectors w !! other) ∧
  _injections <$> injectors (find_path_method fuel self token strict w).2 !! self
    = _injections <$> injectors w !! self.
Proof.
  destruct (find_path_method_cases fuel self token strict w)
    as [[-> _]|(ms & p & c' & Hms & _ & -> & _)]; [done|].
  cbn [dicts classes heap injectors set_injectors].
  split_and!; try done.
  - by rewrite length_insert.
  - intros other Hne. by rewrite list_lookup_insert_ne.
  - rewrite list_lookup_insert_eq by (by eapply lookup_lt_Some). by rewrite Hms.
Qed.

(** Running a plan writes to the heap only. *)
Lemma deliver_dicts fuel self token strict w :
  dicts (deliver fuel self token strict w).2
    = dicts (find_path_method fuel self token strict w).2.
Proof.
  unfold deliver, bind.
  destruct (find_path_method fuel self token strict w) as [[p|e|] w1]; [|done|done].
  unfold on_heap.
  destruct (run_path (rev p) [] 0 (heap w1)) as [[r|e|] h]; [|done|done].
  simpl. by destruct (last r.1).
Qed.

(** X7.  A delivery, whatever its outcome, writes to no dictionary and to no
    other injector, keeps the dictionary its injector refers to, and never
    shrinks the heap: locations handed out before stay valid. *)
Theorem deliver_frame fuel self token strict w :
  dicts (deliver fuel self token strict w).2 = dicts w ∧
  classes (deliver fuel self token strict w).2 = classes w ∧
  length (injectors (deliver fuel self token strict w).2) = length (injectors w) ∧
  (∀ other, other ≠ self →
     injectors (deliver fuel self token strict w).2 !! other = injectors w !! other) ∧
  _injections <$> injectors (deliver fuel self token strict w).2 !! self
    = _injections <$> injectors w !! self ∧
  length (heap w) ≤ length (heap (deliver fuel self token strict w).2).
Proof.
  destruct (find_path_method_frame fuel self token strict w)
    as (Hd & Hc & Hh & Hl & Ho & Hs).
  unfold deliver, bind.
  destruct (find_path_method fuel self token strict w) as [[path|e|] w1];
    simpl in *; [|by rewrite Hh|by rewrite Hh].
  unfold on_heap.
  pose proof (run_path_heap (rev path) [] 0 (heap w1)) as Hgrow.
  destruct (run_path (rev path) [] 0 (heap w1)) as [[r|e|] h] eqn:Er;
    rewrite ?Er in Hgrow; simpl in *; rewrite Hh in Hgrow.
  - destruct (last r.1); simpl; (split_and!; [done|done|done|done|done|lia]).
  - split_and!; [done|done|done|done|done|lia].
  - split_and!; [done|done|done|done|done|lia].
Qed.

(** X8.  When a constructor or factory raises during the walk, [deliver]
    passes the exception on as it is, and the plan it walked stays cached:
    the next delivery of the pair does not plan again. *)
Theorem deliver_factory_raises fuel self token strict w path e :
  (find_path_method fuel self token strict w).1 = Ok path →
  (run_path (rev path) [] 0 (heap w)).1 = Raise e →
  (deliver fuel self token strict w).1 = Raise e ∧
  ∀ fuel', (find_path_method fuel' self token strict
              (deliver fuel self token strict w).2).1 = Ok path.
Proof.
  intros Hplan Hrun.
  pose proof (deliver_injectors fuel self token strict w) as Hinj.
  destruct (find_path_method_cases fuel self token strict w)
    as [[_ Hno]|(ms & p & c' & Hms & Hp & Hw & Hc')]; [by apply Hno in Hplan|].
  assert (p = path) as -> by congruence.
  split.
  - unfold deliver, bind.
    destruct (find_path_method fuel self token strict w) as [r w1].
    simpl in *. subst r w1. unfold on_heap. cbn [heap set_injectors].
    by destruct (run_path (rev path) [] 0 (heap w)) as [[r|e'|] h]; simpl in *;
      simplify_eq.
  - intros fuel'. rewrite Hw in Hinj. cbn [injectors set_injectors] in Hinj.
    eapply (find_path_method_hit fuel' self token strict _
              {| _injections := _injections ms; _find_path_method := c' |}).
    + rewrite Hinj. apply list_lookup_insert_eq. by eapply lookup_lt_Some.
    + cbn [_find_path_method].
      destruct Hc' as [[_ ->]|[_ ->]]; [apply cache_get_hit|apply cache_get_miss].
Qed.

Lemma deliver_factory_raises_witness :
  (deliver 2 0 (TClass 20) true ex_broken_world).1 = Raise (UserError 1) ∧
  (find_path_method 0 0 (TClass 20) true
     (deliver 2 0 (TClass 20) true ex_broken_world).2).1
    = Ok [(0, Some (FunctionInjection broken_factory))].
Proof.
  destruct (deliver_factory_raises 2 0 (TClass 20) true ex_broken_world
              [(0, Some (FunctionInjection broken_factory))] (UserError 1)
              eq_refl eq_refl) as [H1 H2].
  split; [exact H1|apply H2].
Defined.

(** * Further properties of registration *)

Lemma find_path_method_uncached fuel s t b w ms m :
  injectors w !! s = Some ms →
  cache_get (t, b) (_find_path_method ms) = None →
  dicts w !! _injections ms = Some m →
  (find_path_method fuel s t b w).1 = find_path_loop fuel m b [t] [].
Proof.
  intros Hms Hc Hd.
  unfold find_path_method, bind, get_injector. rewrite Hms, Hc.
  unfold _find_path, bind, get_injector, get_dict, of_result. rewrite Hms, Hd.
  by destruct (find_path_loop fuel m b [t] []).
Qed.


Lemma prepare_injection_live self token i w me m :
  injectors w !! self = Some me →
  dicts w !! _injections me = Some m →
  prepare_injection self token (SInjection i) w
    = (Ok tt, set_dicts (<[_injections me := <[token := i]> m]> (dicts w)) w).
Proof.
  intros Hme Hd. unfold prepare_injection, bind, get_injector, get_dict, put_dict.
  by rewrite Hme, Hd.
Qed.

Lemma prepare_inferred self token value w i :
  infer_injection token value w = (Ok i, w) →
  prepare self token value w = prepare_injection self token (SInjection i) w.
Proof. intros H. unfold prepare, bind. by rewrite H. Qed.

(** X9.  [prepare_injection] raises [PreparationError] exactly when its
    argument is not an injection.  Given an injection and a live injector it
    returns, and then the token is bound to that injection in the injector's
    dictionary and to nothing else is anything done: every other token keeps
    its binding, and the heap, the injectors with their caches, and the
    other dictionaries are as before. *)
Theorem prepare_injection_registers self token x w :
  ((prepare_injection self token x w).1 = Raise PreparationError
     ↔ ∀ i, x ≠ SInjection i) ∧
  (∀ i me m,
     x = SInjection i →
     injectors w !! self = Some me →
     dicts w !! _injections me = Some m →
     (prepare_injection self token x w).1 = Ok tt ∧
     registry (prepare_injection self token x w).2 self = Some (<[token := i]> m) ∧
     heap (prepare_injection self token x w).2 = heap w ∧
     injectors (prepare_injection self token x w).2 = injectors w ∧
     classes (prepare_injection self token x w).2 = classes w ∧
     ∀ d, d ≠ _injections me →
          dicts (prepare_injection self token x w).2 !! d = dicts w !! d).
Proof.
  split.
  - split.
    + intros Hraise i ->. by apply prepare_injection_not_preparation_error in Hraise.
    + intros Hnot. destruct x as [i| | | | |]; try done. by destruct (Hnot i).
  - intros i me m -> Hme Hd.
    rewrite (prepare_injection_live _ _ _ _ _ _ Hme Hd).
    split_and!; try done.
    + unfold registry. cbn [injectors dicts set_dicts snd]. rewrite Hme.
      apply list_lookup_insert_eq. by eapply lookup_lt_Some.
    + intros d Hne. cbn [dicts set_dicts snd]. by rewrite list_lookup_insert_ne.
Qed.

Lemma prepare_injection_registers_witness :
  (prepare_injection 0 (TClass 7) (SObject (VStr "alice")) ex_fresh_world).1
    = Raise PreparationError ∧
  registry (prepare_injection 0 (TClass 7) (SInjection (ValueInjection (VStr "alice")))
              ex_fresh_world).2 0
    = Some (<[TClass 7 := ValueInjection (VStr "alice")]> ∅).
Proof.
  split.
  - by apply (proj1 (prepare_injection_registers 0 (TClass 7) _ ex_fresh_world)).
  - by apply (proj2 (prepare_injection_registers 0 (TClass 7) _ ex_fresh_world)
                (ValueInjection (VStr "alice"))
                {| _injections := 0; _find_path_method := [] |} ∅).
Defined.

(** X10.  Registrations compose like writes to a dictionary: a second
    registration of the same token replaces the first, and registrations of
    different tokens can be made in either order. *)
Theorem prepare_injection_compose self t1 t2 i1 i2 w :
  (t1 = t2 →
     exec (prepare_injection self t2 (SInjection i2))
       (exec (prepare_injection self t1 (SInjection i1)) w)
     = exec (prepare_injection self t2 (SInjection i2)) w) ∧
  (t1 ≠ t2 →
     exec (prepare_injection self t2 (SInjection i2))
       (exec (prepare_injection self t1 (SInjection i1)) w)
     = exec (prepare_injection self t1 (SInjection i1))
         (exec (prepare_injection self t2 (SInjection i2)) w)).
Proof.
  unfold exec.
  destruct (injectors w !! self) as [me|] eqn:Hme.
  2:{ assert (Hdead : ∀ t i, prepare_injection self t (SInjection i) w
                             = (Raise BadReference, w)).
      { intros t i. unfold prepare_injection, bind, get_injector. by rewrite Hme. }
      split; intros _; by rewrite !Hdead, ?Hdead. }
  destruct (dicts w !! _injections me) as [m|] eqn:Hd.
  2:{ assert (Hdead : ∀ t i, prepare_injection self t (SInjection i) w
                             = (Raise BadReference, w)).
      { intros t i. unfold prepare_injection, bind, get_injector, get_dict.
        by rewrite Hme, Hd. }
      split; intros _; by rewrite !Hdead, ?Hdead. }
  pose proof (lookup_lt_Some _ _ _ Hd) as Hlt.
  assert (Hnext : ∀ t i t' i',
    (prepare_injection self t' (SInjection i')
       (prepare_injection self t (SInjection i) w).2).2
    = set_dicts (<[_injections me := <[t' := i']> (<[t := i]> m)]> (dicts w)) w).
  { intros t i t' i'.
    rewrite (prepare_injection_live _ t i w me m Hme Hd). cbn [snd].
    rewrite (prepare_injection_live _ t' i' _ me (<[t := i]> m));
      [|done|by apply list_lookup_insert_eq].
    cbn [snd dicts set_dicts]. unfold set_dicts. cbn.
    by rewrite list_insert_insert_eq. }
  split.
  - intros ->. rewrite Hnext.
    rewrite (prepare_injection_live _ t2 i2 w me m Hme Hd). cbn [snd].
    by rewrite insert_insert_eq.
  - intros Hne. rewrite !Hnext. by rewrite insert_insert_ne.
Qed.

Lemma prepare_injection_compose_witness :
  exec (prepare_injection 0 (TClass 7) (SInjection (ValueInjection (VStr "boris"))))
    (exec (prepare_injection 0 (TClass 7) (SInjection (ValueInjection (VStr "alice"))))
       ex_fresh_world)
  = exec (prepare_injection 0 (TClass 7) (SInjection (ValueInjection (VStr "boris"))))
      ex_fresh_world ∧
  exec (prepare_injection 0 (TClass 8) (SInjection (ValueInjection (VStr "boris"))))
    (exec (prepare_injection 0 (TClass 7) (SInjection (ValueInjection (VStr "alice"))))
       ex_fresh_world)
  = exec (prepare_injection 0 (TClass 7) (SInjection (ValueInjection (VStr "alice"))))
      (exec (prepare_injection 0 (TClass 8) (SInjection (ValueInjection (VStr "boris"))))
         ex_fresh_world).
Proof.
  split.
  - by apply (proj1 (prepare_injection_compose 0 (TClass 7) (TClass 7) _ _ ex_fresh_world)).
  - by apply (proj2 (prepare_injection_compose 0 (TClass 7) (TClass 8) _ _ ex_fresh_world)).
Defined.

(** X12.  For a parameterized list, tuple or set token the tests of the
    origin come before every check on the value: unless the value is itself
    an injection, [prepare] registers a [SequenceInjection] of that built-in
    type and never raises [PreparationError], not even for a lambda with
    arguments or a function without annotations.  The injection lists the
    tokens of a list of tokens and the characters of a string.  A class, a
    function, a method, [None] or a number is kept as well, but has no
    [len]: on a live injector without a plan for the pair, the delivery that
    follows raises [TypeError] and changes nothing. *)
Theorem prepare_container w self token kind value :
  container_kind token = Ok (Some kind) →
  (∀ i, value ≠ SInjection i) →
  (prepare self token value w).1 ≠ Raise PreparationError ∧
  ∃ tokens,
    prepare self token value w
      = prepare_injection self token (SInjection (SequenceInjection kind tokens)) w ∧
    (∀ ts, value = SObject (VTypes ts) →
       ingredients (SequenceInjection kind tokens) = Ok ts) ∧
    (∀ s, value = SObject (VStr s) →
       ingredients (SequenceInjection kind tokens) = Ok (TStr <$> characters s)) ∧
    (unsized value →
       ∀ me m strict fuel,
         injectors w !! self = Some me →
         dicts w !! _injections me = Some m →
         cache_get (token, strict) (_find_path_method me) = None →
         0 < fuel →
         let w1 := exec (prepare self token value) w in
         deliver fuel self token strict w1 = (Raise TypeError, w1)).
Proof.
  intros Hkind Hno.
  assert (Hprep : prepare self token value w
            = prepare_injection self token
                (SInjection (SequenceInjection kind (as_tokens value))) w).
  { unfold prepare, bind. rewrite (infer_injection_kind token value w Hno).
    by rewrite Hkind. }
  split.
  { rewrite Hprep. apply prepare_injection_not_preparation_error. }
  exists (as_tokens value). split_and!; [done|by intros ts ->|by intros s ->|].
  intros Hun me m strict fuel Hme Hd Hc Hfuel w1.
  assert (Htok : as_tokens value = None).
  { destruct value as [i|c|f|f| |[]]; done. }
  assert (Hw1 : w1 = set_dicts (<[_injections me :=
                                    <[token := SequenceInjection kind None]> m]>
                                  (dicts w)) w).
  { unfold w1, exec. rewrite Hprep, Htok.
    by rewrite (prepare_injection_live _ _ _ _ _ _ Hme Hd). }
  assert (Hme1 : injectors w1 !! self = Some me) by (by rewrite Hw1).
  assert (Hd1 : dicts w1 !! _injections me
                = Some (<[token := SequenceInjection kind None]> m)).
  { rewrite Hw1. simpl. apply list_lookup_insert_eq. by eapply lookup_lt_Some. }
  assert (Hplan : (find_path_method fuel self token strict w1).1 = Raise TypeError).
  { rewrite (find_path_method_uncached fuel self token strict w1 me _ Hme1 Hc Hd1).
    destruct fuel as [|fuel]; [lia|]. simpl. by rewrite lookup_insert_eq. }
  destruct (find_path_method_cases fuel self token strict w1)
    as [[Hw _]|(ms & path & c' & _ & Hp & _)]; [|congruence].
  unfold deliver, bind.
  destruct (find_path_method fuel self token strict w1) as [r w2].
  simpl in *. by subst.
Qed.

Lemma prepare_container_witness :
  (prepare 0 (TAlias OriginList 10) (SFunction lambda_with_argument) ex_fresh_world).1
    = Ok tt ∧
  deliver 1 0 (TAlias OriginList 10) true
    (exec (prepare 0 (TAlias OriginList 10) (SFunction lambda_with_argument)) ex_fresh_world)
    = (Raise TypeError,
       exec (prepare 0 (TAlias OriginList 10) (SFunction lambda_with_argument))
         ex_fresh_world).
Proof.
  destruct (prepare_container ex_fresh_world 0 (TAlias OriginList 10) KList
              (SFunction lambda_with_argument) eq_refl)
    as (_ & tokens & _ & _ & _ & H); [done|].
  split; [reflexivity|].
  apply (H I {| _injections := 0; _find_path_method := [] |} ∅ true 1);
    [reflexivity | reflexivity | reflexivity | lia].
Defined.

(** * Round trips *)

Lemma expansion_value m token v :
  m !! token = Some (ValueInjection v) →
  expansion m [token] [[(ValueInjection v, [])]].
Proof.
  intros Hm. apply expansion_level; [done| |constructor].
  apply Forall2_cons_2; [by split|constructor].
Qed.

(** The world a delivery leaves for a token bound to an injection without
    ingredients. *)
Lemma expansion_leaf m token injection :
  m !! token = Some injection → ingredients injection = Ok [] →
  expansion m [token] [[(injection, [])]].
Proof.
  intros Hm Hi. apply expansion_level; [done| |constructor].
  apply Forall2_cons_2; [by split|constructor].
Qed.

(** X11.  For an anonymous function (its name holds [<lambda>]) and a token
    that passes the three tests of the origin, [prepare] raises
    [PreparationError] exactly when the function takes positional arguments.
    Otherwise it registers the function, and on a live injector without a
    plan for the pair the delivery that follows is the call of the function
    without arguments: its result or exception, and its changes of the
    heap. *)
Theorem prepare_lambda w self token f :
  contains "<lambda>" (fn_name f) = true →
  container_kind token = Ok None →
  ((prepare self token (SFunction f) w).1 = Raise PreparationError
     ↔ co_argcount f ≠ 0) ∧
  (co_argcount f = 0 →
     ∀ me m strict fuel,
       injectors w !! self = Some me →
       dicts w !! _injections me = Some m →
       cache_get (token, strict) (_find_path_method me) = None →
       1 < fuel →
       let w1 := exec (prepare self token (SFunction f)) w in
       (prepare self token (SFunction f) w).1 = Ok tt ∧
       (deliver fuel self token strict w1).1 = (call (fn_call f) [] (heap w)).1 ∧
       heap (deliver fuel self token strict w1).2 = (call (fn_call f) [] (heap w)).2).
Proof.
  intros Hlambda Hkind.
  assert (Hinfer : infer_injection token (SFunction f) w =
            if bool_decide (co_argcount f ≠ 0)
            then (Raise PreparationError, w) else (Ok (LambdaInjection f), w)).
  { rewrite infer_injection_kind by done. rewrite Hkind.
    unfold infer_plain. rewrite Hlambda. by destruct (bool_decide _). }
  split.
  - unfold prepare, bind. rewrite Hinfer.
    case_bool_decide as Hargs; [done|].
    split; [|done].
    intros H. by apply prepare_injection_not_preparation_error in H.
  - intros Hzero me m strict fuel Hme Hd Hc Hfuel w1.
    rewrite bool_decide_eq_false_2 in Hinfer by (intros ?; congruence).
    assert (Hprep : prepare self token (SFunction f) w
              = (Ok tt, set_dicts (<[_injections me := <[token := LambdaInjection f]> m]>
                                     (dicts w)) w)).
    { unfold prepare, bind. rewrite Hinfer.
      by rewrite (prepare_injection_live _ _ _ _ _ _ Hme Hd). }
    assert (Hw1 : w1 = set_dicts (<[_injections me := <[token := LambdaInjection f]> m]>
                                    (dicts w)) w).
    { unfold w1, exec. by rewrite Hprep. }
    set (m1 := <[token := LambdaInjection f]> m) in *.
    assert (Hexp : expansion m1 [token] [[(LambdaInjection f, [])]]).
    { apply expansion_leaf; [apply lookup_insert_eq|done]. }
    assert (Hme1 : injectors w1 !! self = Some me) by (by rewrite Hw1).
    assert (Hby1 : planned_by me w1 token strict m1).
    { unfold planned_by. rewrite Hc, Hw1. simpl.
      apply list_lookup_insert_eq. by eapply lookup_lt_Some. }
    destruct (deliver_world w1 self me m1 token strict _ fuel Hme1 Hby1 Hexp)
      as (c1 & _ & ->); [simpl; lia|].
    rewrite Hprep. split; [done|].
    cbn [deliver_rows deliver_row deliver_injection fst snd].
    replace (heap w1) with (heap w) by (by rewrite Hw1).
    by destruct (call (fn_call f) [] (heap w)) as [[v|e|] h'].
Qed.

Lemma prepare_lambda_witness :
  (prepare 0 (TClass 2) (SFunction lambda_with_argument) ex_fresh_world).1
    = Raise PreparationError ∧
  (deliver 2 0 (TClass 2) true
     (exec (prepare 0 (TClass 2) (SFunction lambda_service)) ex_fresh_world)).1
    = Ok (VRef 0).
Proof.
  split.
  - apply (prepare_lambda ex_fresh_world 0 (TClass 2) lambda_with_argument);
      [reflexivity | reflexivity | vm_compute; lia].
  - destruct (prepare_lambda ex_fresh_world 0 (TClass 2) lambda_service)
      as [_ H]; [reflexivity | reflexivity |].
    destruct (H eq_refl {| _injections := 0; _find_path_method := [] |} ∅ true 2)
      as (_ & H' & _); [reflexivity | reflexivity | reflexivity | lia |].
    exact H'.
Defined.

(** X14.  What is registered as a plain value is what is delivered: for a
    token that passes the three tests of the origin and an object [v] that
    is none of the kinds [prepare] treats apart ([None] among them), after
    [prepare(token, v)] on a live injector that holds no plan for the pair,
    [deliver] returns [v] itself, allocates nothing, and does so again on the
    next delivery, in either mode. *)
Theorem prepare_deliver_value w self me m token strict v fuel :
  injectors w !! self = Some me →
  dicts w !! _injections me = Some m →
  container_kind token = Ok None →
  v ≠ VNone →
  cache_get (token, strict) (_find_path_method me) = None →
  1 < fuel →
  let w1 := exec (prepare self token (SObject v)) w in
  let w2 := (deliver fuel self token strict w1).2 in
  (deliver fuel self token strict w1).1 = Ok v ∧ heap w2 = heap w ∧
  (deliver fuel self token strict w2).1 = Ok v ∧
  heap (deliver fuel self token strict w2).2 = heap w.
Proof.
  intros Hme Hd Hkind Hv Hcache Hfuel w1 w2.
  assert (Hw1 : w1 = set_dicts (<[_injections me := <[token := ValueInjection v]> m]>
                                  (dicts w)) w).
  { unfold w1, exec.
    rewrite (prepare_inferred self token (SObject v) w (ValueInjection v)).
    - by rewrite (prepare_injection_live _ _ _ _ _ _ Hme Hd).
    - rewrite infer_injection_kind by done. rewrite Hkind. by destruct v. }
  set (m1 := <[token := ValueInjection v]> m) in *.
  assert (Hm1 : m1 !! token = Some (ValueInjection v)) by apply lookup_insert_eq.
  pose proof (expansion_value m1 token v Hm1) as Hexp.
  assert (Hme1 : injectors w1 !! self = Some me) by (by rewrite Hw1).
  assert (Hby1 : planned_by me w1 token strict m1).
  { unfold planned_by. rewrite Hcache, Hw1. simpl.
    apply list_lookup_insert_eq. by eapply lookup_lt_Some. }
  destruct (deliver_world w1 self me m1 token strict _ fuel Hme1 Hby1 Hexp)
    as (c1 & Hc1 & Hdel1); [simpl; lia|].
  simpl in Hdel1.
  assert (Hw2 : w2 = set_heap (heap w1)
            (set_injectors (<[self := {| _injections := _injections me;
                                         _find_path_method := c1 |}]> (injectors w1)) w1)).
  { unfold w2. by rewrite Hdel1. }
  assert (Hme2 : injectors w2 !! self
                 = Some {| _injections := _injections me; _find_path_method := c1 |}).
  { rewrite Hw2. simpl. apply list_lookup_insert_eq. by eapply lookup_lt_Some. }
  assert (Hby2 : planned_by {| _injections := _injections me; _find_path_method := c1 |}
                   w2 token strict m1).
  { unfold planned_by. cbn [_find_path_method]. rewrite Hc1.
    exists fuel. apply (find_path_plan m1 strict token _ fuel Hexp). simpl. lia. }
  destruct (deliver_world w2 self _ m1 token strict _ fuel Hme2 Hby2 Hexp)
    as (c2 & Hc2 & Hdel2); [simpl; lia|].
  simpl in Hdel2.
  rewrite Hdel1. split_and!.
  - done.
  - rewrite Hw2. simpl. by rewrite Hw1.
  - by rewrite Hdel2.
  - rewrite Hdel2. simpl. rewrite Hw2. simpl. by rewrite Hw1.
Qed.

Lemma prepare_deliver_value_witness :
  (deliver 2 0 (TClass 7) true
     (exec (prepare 0 (TClass 7) (SObject (VStr "alice"))) ex_fresh_world)).1
  = Ok (VStr "alice").
Proof.
  by apply (prepare_deliver_value ex_fresh_world 0
              {| _injections := 0; _find_path_method := [] |} ∅ (TClass 7) true
              (VStr "alice") 2 eq_refl eq_refl eq_refl ltac:(discriminate)
              eq_refl ltac:(lia)).
Defined.


(** * The cache stays current while nothing is registered *)

Lemma cache_get_take_some key c n p :
  cache_get key (take n c) = Some p → cache_get key c = Some p.
Proof.
  revert n. induction c as [|[k q] c IH]; intros n; [by rewrite take_nil|].
  destruct n as [|n]; [done|]. simpl.
  case_bool_decide; [done|]. apply IH.
Qed.

Lemma cache_get_remove_some key key' c p :
  cache_get key (cache_remove key' c) = Some p → cache_get key c = Some p.
Proof.
  unfold cache_remove. induction c as [|[k q] c IH]; [done|].
  destruct (decide (k = key')) as [->|Hk].
  - rewrite filter_cons_False by (simpl; tauto). simpl.
    intros H. case_bool_decide as Hkk; [|by apply IH].
    subst. exfalso. clear -H.
    induction c as [|[k q] c IH]; [done|].
    destruct (decide (k = key)) as [->|Hk].
    + rewrite filter_cons_False in H by (simpl; tauto). by apply IH.
    + rewrite filter_cons_True in H by done. simpl in H.
      rewrite bool_decide_eq_false_2 in H by done. by apply IH.
  - rewrite filter_cons_True by done. simpl.
    case_bool_decide; [done|apply IH].
Qed.

(** On a miss the plan stored is the plan [_find_path] computed from the
    dictionary of the injector. *)
Lemma find_path_method_miss fuel s t b w ms p :
  injectors w !! s = Some ms →
  cache_get (t, b) (_find_path_method ms) = None →
  (find_path_method fuel s t b w).1 = Ok p →
  ∃ m, dicts w !! _injections ms = Some m ∧ find_path_loop fuel m b [t] [] = Ok p.
Proof.
  intros Hms Hc. unfold find_path_method, bind, get_injector.
  rewrite Hms, Hc. unfold _find_path, bind, get_injector, get_dict, of_result.
  rewrite Hms.
  destruct (dicts w !! _injections ms) as [m|]; [|done].
  destruct (find_path_loop fuel m b [t] []) as [q|e|] eqn:E; [|done|done].
  simpl. intros [= ->]. by exists m.
Qed.

Lemma create_dicts_lookup s w d :
  d < length (dicts w) →
  dicts (exec (create s) w) !! d = dicts w !! d.
Proof.
  intros Hlt.
  unfold exec, create, Injector_init, bind, new_dict, new_injector, get_injector,
    get_dict, put_injector, ret.
  cbn [injectors dicts set_injectors set_dicts].
  repeat case_match; simplify_eq; cbn [snd injectors dicts set_injectors set_dicts];
    rewrite ?lookup_app_l by (rewrite ?length_app; simpl; lia); done.
Qed.

Lemma run_call_sound c w self :
  no_registration c → cache_sound w self →
  cache_sound (run_call c w) self ∧ registry (run_call c w) self = registry w self.
Proof.
  intros Hc (me & m & Hme & Hd & Hsound).
  assert (Hreg : registry w self = Some m) by (unfold registry; by rewrite Hme).
  destruct c as [s r|fuel s t b|s]; [done| |]; simpl.
  - unfold exec.
    assert (Hdicts : dicts (deliver fuel s t b w).2 = dicts w).
    { rewrite deliver_dicts. apply find_path_method_frame. }
    assert (Hother : ∀ other, other ≠ s →
              injectors (deliver fuel s t b w).2 !! other = injectors w !! other).
    { rewrite deliver_injectors. apply find_path_method_frame. }
    destruct (decide (s = self)) as [->|Hne].
    2:{ split.
        - exists me, m. rewrite Hother by done. rewrite Hdicts. done.
        - unfold registry. rewrite Hother by done. by rewrite Hdicts. }
    pose proof (deliver_injectors fuel self t b w) as Hinj.
    destruct (find_path_method_cases fuel self t b w)
      as [[Hw _]|(ms & p & c' & Hms & Hp & Hw & Hc')].
    { rewrite Hw in Hinj. split.
      - exists me, m. by rewrite Hinj, Hdicts.
      - unfold registry. by rewrite Hinj, Hdicts. }
    assert (ms = me) as -> by congruence.
    rewrite Hw in Hinj. cbn [injectors set_injectors] in Hinj.
    assert (Hnew : injectors (deliver fuel self t b w).2 !! self
                   = Some {| _injections := _injections me; _find_path_method := c' |}).
    { rewrite Hinj. apply list_lookup_insert_eq. by eapply lookup_lt_Some. }
    assert (Hsound_p : ∃ fuel', find_path_loop fuel' m b [t] [] = Ok p).
    { destruct Hc' as [[Hget _]|[Hget _]]; [by apply (Hsound t b p)|].
      destruct (find_path_method_miss fuel self t b w me p Hme Hget Hp)
        as (m' & Hm' & Hloop).
      assert (m' = m) as -> by congruence. by exists fuel. }
    split.
    + eexists _, m. split; [exact Hnew|]. split; [by rewrite Hdicts|].
      cbn [_find_path_method].
      intros t' s' path'.
      destruct Hc' as [[_ ->]|[_ ->]]; unfold cache_hit, cache_miss; simpl;
        case_bool_decide as Hkey.
      * intros [= <-]. by simplify_eq.
      * intros H. apply cache_get_remove_some in H. by apply Hsound.
      * intros [= <-]. by simplify_eq.
      * intros H. apply Hsound.
        case_bool_decide; [done|]. by apply cache_get_take_some in H.
    + unfold registry. rewrite Hnew, Hme. cbn [_injections]. by rewrite Hdicts.
  - assert (Hi : injectors (exec (create s) w) !! self = Some me).
    { rewrite create_injectors_lookup; [done|]. by eapply lookup_lt_Some. }
    assert (Hdd : dicts (exec (create s) w) !! _injections me = Some m).
    { rewrite create_dicts_lookup; [done|]. by eapply lookup_lt_Some. }
    split.
    + by exists me, m.
    + unfold registry. by rewrite Hi, Hme, Hdd.
Qed.

(** X15.  Configure first, then resolve: through any run of deliveries and
    creations, on any injectors, the dictionary of an injector stays as it is
    and every plan in its cache stays a plan of that dictionary.  Only a
    registration can make a cached plan stale. *)
Theorem cache_sound_kept calls : ∀ w self,
  cache_sound w self →
  Forall no_registration calls →
  cache_sound (run_calls calls w) self ∧
  registry (run_calls calls w) self = registry w self.
Proof.
  induction calls as [|c calls IH]; intros w self Hsound Hcalls; [done|].
  apply Forall_cons in Hcalls as [Hc Hcalls].
  destruct (run_call_sound c w self Hc Hsound) as [Hs Hr].
  simpl. destruct (IH (run_call c w) self Hs Hcalls) as [Hs' Hr'].
  split; [done|congruence].
Qed.

Lemma cache_sound_kept_witness :
  cache_sound (run_calls [CallDeliver 7 0 (TClass 4) true; CallCreate 0] ex_deep_world) 0 ∧
  registry (run_calls [CallDeliver 7 0 (TClass 4) true; CallCreate 0] ex_deep_world) 0
    = registry ex_deep_world 0.
Proof.
  apply cache_sound_kept.
  - exists {| _injections := 0; _find_path_method := [] |}, ex_deep_injections.
    split_and!; [reflexivity|reflexivity|]. intros t s path H. discriminate H.
  - repeat constructor.
Defined.

(** X16.  An injector made by [create] starts with an empty cache: it plans
    every token from its copy of the dictionary, whatever plans the parent
    holds, and [create] allocates nothing and leaves the parent's object,
    cache included, as it is. *)
Theorem create_fresh_cache w parent me m :
  injectors w !! parent = Some me →
  dicts w !! _injections me = Some m →
  registry (create parent w).2 (length (injectors w)) = Some m ∧
  cache_sound (create parent w).2 (length (injectors w)) ∧
  heap (create parent w).2 = heap w ∧
  injectors (create parent w).2 !! parent = Some me ∧
  ∀ fuel token strict,
    (find_path_method fuel (length (injectors w)) token strict (create parent w).2).1
      = find_path_loop fuel m strict [token] [].
Proof.
  intros Hme Hd.
  pose proof (lookup_lt_Some _ _ _ Hme) as Hlt.
  rewrite (create_world w parent me m Hme Hd). cbn [snd].
  set (kid := {| _injections := S (length (dicts w)); _find_path_method := [] |}).
  assert (Hkid : (injectors w ++ [kid]) !! length (injectors w) = Some kid)
    by (by rewrite list_lookup_middle).
  assert (Hcopy : (dicts w ++ [∅; m]) !! S (length (dicts w)) = Some m).
  { rewrite lookup_app_r by lia.
    by replace (S (length (dicts w)) - length (dicts w)) with 1 by lia. }
  split_and!.
  - unfold registry. cbn [injectors dicts set_injectors set_dicts]. by rewrite Hkid.
  - exists kid, m. cbn [injectors dicts set_injectors set_dicts].
    split_and!; [done|done|]. intros t s path H. discriminate H.
  - done.
  - cbn [injectors set_injectors]. by rewrite lookup_app_l.
  - intros fuel token strict.
    by apply (find_path_method_uncached fuel _ token strict _ kid m).
Qed.

(** The parent of the stale example still holds its old plan for
    [MyService]; its child plans from the dictionary and meets the
    unconfigured gateway. *)
Lemma create_fresh_cache_witness :
  (find_path_method 3 1 (TClass 2) true (create 0 ex_stale_world).2).1
    = Raise DeliveryError ∧
  (find_path_method 3 0 (TClass 2) true (create 0 ex_stale_world).2).1
    = Ok [(1, Some (ClassInjection MyService)); (0, Some (ClassInjection MyRepository))].
Proof.
  assert (Hme : injectors ex_stale_world !! 0
                = Some {| _injections := 0;
                          _find_path_method :=
                            [((TClass 2, true),
                              [(1, Some (ClassInjection MyService));
                               (0, Some (ClassInjection MyRepository))])] |})
    by (vm_compute; reflexivity).
  assert (Hd : dicts ex_stale_world !! 0
               = Some (<[TClass 2 := FunctionInjection create_from_gateway]>
                         (<[TClass 1 := ClassInjection MyRepository]> ∅)))
    by (vm_compute; reflexivity).
  destruct (create_fresh_cache ex_stale_world 0 _ _ Hme Hd) as (_ & _ & _ & _ & Hplan).
  split.
  - etrans; [exact (Hplan 3 (TClass 2) true)|reflexivity].
  - vm_compute. reflexivity.
Defined.

(** * inject *)

Lemma deliver_each_nil fuel self strict w :
  deliver_each fuel self [] strict w = (Ok [], w).
Proof. done. Qed.

(** X17.  When [skip] covers every parameter of the target, the wrapper
    resolves nothing: it is the target called with the caller's positional
    and keyword arguments, and the injector is not touched. *)
Theorem inject_skip_all empty fuel self target skip strict args kwargs w :
  length (target_params target) ≤ skip →
  inject empty fuel self target skip strict args kwargs w
    = call_target target args kwargs w.
Proof.
  intros Hskip. unfold inject, _resolve_args, bind.
  rewrite drop_ge by done. simpl. by rewrite app_nil_r.
Qed.

Lemma inject_skip_all_witness :
  inject (TClass 0) 2 0 ex_target 3 true [VInt 1; VInt 2; VInt 3] [] ex_fresh_world
    = (Ok (VInt 3), ex_fresh_world).
Proof.
  rewrite inject_skip_all by (simpl; lia). reflexivity.
Defined.

(** Under a sound cache the plan of every pair comes from the dictionary of
    the injector. *)
Lemma cache_sound_planned w self m token strict :
  cache_sound w self → registry w self = Some m →
  ∃ me, injectors w !! self = Some me ∧ planned_by me w token strict m.
Proof.
  intros (me & m' & Hme & Hd & Hsound) Hreg.
  unfold registry in Hreg. rewrite Hme, Hd in Hreg. injection Hreg as ->.
  exists me. split; [done|]. unfold planned_by.
  destruct (cache_get (token, strict) (_find_path_method me)) as [path|] eqn:Hc; [|done].
  by apply (Hsound token strict).
Qed.

(** Delivering tokens bound to plain values, one after the other. *)
Lemma deliver_each_values fuel self strict m : ∀ tokens values w,
  1 < fuel →
  cache_sound w self → registry w self = Some m →
  Forall2 (λ t v, m !! t = Some (ValueInjection v)) tokens values →
  ∃ w', deliver_each fuel self tokens strict w = (Ok values, w') ∧ heap w' = heap w.
Proof.
  induction tokens as [|t tokens IH]; intros values w Hfuel Hsound Hreg Hvals.
  { apply Forall2_nil_inv_l in Hvals as ->. by exists w. }
  apply Forall2_cons_inv_l in Hvals as (v & values' & Hv & Hvals & ->).
  destruct (cache_sound_planned w self m t strict Hsound Hreg) as (me & Hme & Hby).
  destruct (deliver_world w self me m t strict _ fuel Hme Hby (expansion_value m t v Hv))
    as (c' & _ & Hdel); [simpl; lia|].
  simpl in Hdel.
  destruct (run_call_sound (CallDeliver fuel self t strict) w self I Hsound)
    as [Hsound' Hreg'].
  simpl in Hsound', Hreg'. unfold exec in Hsound', Hreg'.
  rewrite Hreg in Hreg'. rewrite Hdel in Hsound', Hreg'. cbn [snd] in Hsound', Hreg'.
  destruct (IH values' _ Hfuel Hsound' Hreg' Hvals) as (w2 & Heach & Hh).
  exists w2. split; [|by rewrite Hh].
  cbn [deliver_each]. unfold bind. by rewrite Hdel, Heach.
Qed.

(** X18.  When the cache of the injector is sound and every parameter after
    the skipped ones is annotated with a token bound to a plain value, the
    wrapper is the target called with the caller's positional arguments
    followed by those values, in the order of the parameters, and with the
    keyword arguments unchanged; the resolution allocates nothing. *)
Theorem inject_values empty fuel self target skip strict args kwargs w m values :
  1 < fuel →
  cache_sound w self →
  registry w self = Some m →
  Forall2 (λ p v, ∃ t, p_annotation p = Some t ∧ m !! t = Some (ValueInjection v))
    (drop skip (target_params target)) values →
  (inject empty fuel self target skip strict args kwargs w).1
    = (target_call target (args ++ values) kwargs (heap w)).1 ∧
  heap (inject empty fuel self target skip strict args kwargs w).2
    = apply_ops (heap w) (target_call target (args ++ values) kwargs (heap w)).2.
Proof.
  intros Hfuel Hsound Hreg Hparams.
  assert (Htokens : Forall2 (λ t v, m !! t = Some (ValueInjection v))
                      (annotation_or empty <$> drop skip (target_params target)) values).
  { apply Forall2_fmap_l. eapply Forall2_impl; [exact Hparams|].
    intros p v (t & Hp & Hm). unfold annotation_or; simpl. by rewrite Hp. }
  destruct (deliver_each_values fuel self strict m _ values w Hfuel Hsound Hreg Htokens)
    as (w1 & Heach & Hh).
  unfold inject, _resolve_args, bind. rewrite Heach.
  unfold ret, call_target, on_heap. rewrite Hh.
  by destruct (target_call target (args ++ values) kwargs (heap w)) as [r ops].
Qed.

Lemma inject_values_witness :
  (inject (TClass 0) 2 0 ex_target 2 true [VInt 1; VInt 2] [] ex_parent_world).1
    = Ok (VStr "alice").
Proof.
  destruct (inject_values (TClass 0) 2 0 ex_target 2 true [VInt 1; VInt 2] []
              ex_parent_world {[ TClass 7 := ValueInjection (VStr "alice") ]}
              [VStr "alice"]) as [H _].
  - lia.
  - exists {| _injections := 0; _find_path_method := [] |},
      {[ TClass 7 := ValueInjection (VStr "alice") ]}.
    split_and!; [reflexivity|reflexivity|]. intros t s path H. discriminate H.
  - reflexivity.
  - apply Forall2_cons_2; [|constructor]. by exists (TClass 7).
  - rewrite H. reflexivity.
Defined.

(** X19.  In strict mode, when the first parameter after the skipped ones
    has a token without injection (for a parameter without annotation the
    token is the marker for an empty annotation) and no strict plan is
    cached for it, the wrapper raises [DeliveryError]; the target is not
    called and the world is as before. *)
Theorem inject_unresolved empty fuel self target skip args kwargs w me m p rest :
  injectors w !! self = Some me →
  dicts w !! _injections me = Some m →
  drop skip (target_params target) = p :: rest →
  m !! annotation_or empty p = None →
  cache_get (annotation_or empty p, true) (_find_path_method me) = None →
  0 < fuel →
  inject empty fuel self target skip true args kwargs w = (Raise DeliveryError, w).
Proof.
  intros Hme Hd Hdrop Hnone Hc Hfuel.
  assert (Hplan : (find_path_method fuel self (annotation_or empty p) true w).1
                  = Raise DeliveryError).
  { rewrite (find_path_method_uncached fuel self _ true w me m Hme Hc Hd).
    destruct fuel as [|fuel]; [lia|]. simpl. by rewrite Hnone. }
  unfold inject, _resolve_args, bind. rewrite Hdrop.
  cbn [fmap list_fmap deliver_each]. unfold bind.
  destruct (find_path_method_cases fuel self (annotation_or empty p) true w)
    as [[Hw _]|(ms & path & c' & _ & Hp & _)]; [|congruence].
  unfold deliver, bind.
  destruct (find_path_method fuel self (annotation_or empty p) true w) as [r w1].
  simpl in *. by subst.
Qed.

Lemma inject_unresolved_witness :
  inject (TClass 0) 2 0 ex_target 1 true [VInt 1] [] ex_parent_world
    = (Raise DeliveryError, ex_parent_world).
Proof.
  apply (inject_unresolved (TClass 0) 2 0 ex_target 1 [VInt 1] [] ex_parent_world
           {| _injections := 0; _find_path_method := [] |}
           {[ TClass 7 := ValueInjection (VStr "alice") ]}
           {| p_name := "b"; p_kind := Positional; p_annotation := None |}
           [param "service" (TClass 7)]);
    [reflexivity|reflexivity|reflexivity|vm_compute; reflexivity|reflexivity|lia].
Defined.
